(** * ExFatLogger: the acquisition loop, its ring buffer and the overrun codec

    A shallow embedding of [examples/ExFatLogger/ExFatLogger.ino]:
    [logRecord], the record part of [printRecord], and the [while (1)]
    loop of [logData] with its three phases (deadline, push, write). *)

From Stdlib Require Import ZArith Lia Ascii.
From stdpp Require Import base list strings.

Local Open Scope Z_scope.

(** ** Machine integers

    Every C integer is a [Z] together with the wrap-around of its type. *)

Definition u16 (x : Z) : Z := x mod 2 ^ 16.
Definition u32 (x : Z) : Z := x mod 2 ^ 32.
Definition u8 (x : Z) : Z := x mod 2 ^ 8.
Definition u64 (x : Z) : Z := x mod 2 ^ 64.

(** Conversion of a 32-bit pattern to [int32_t] (two's complement). *)
Definition i32 (x : Z) : Z := (x + 2 ^ 31) mod 2 ^ 32 - 2 ^ 31.

(** ** Build configuration *)

(** The three arms of the [#ifdef __AVR_ATmega328P__ / __AVR__] chain. *)
Inductive board := ATmega328P | OtherAVR | NonAVR.

Definition FIFO_SIZE_SECTORS (b : board) : Z :=
  match b with
  | ATmega328P => 1
  | OtherAVR => 4
  | NonAVR => 16
  end.

Definition LOG_INTERVAL_USEC : Z := 2000.
Definition ERROR_LED_PIN : Z := -1.

(** ** Records *)

(** Modelled from the spec: [ExFatLogger.h], which declares [data_t], is
    absent; a record is a fixed-width tuple of [uint16_t] channel values,
    the array [adc] that [logRecord] and [printRecord] index. *)
Record data_t := mk_data { adc : list Z }.

(** Value of [data->adc[k]]. *)
Definition adc_at (data : data_t) (k : nat) : Z := default 0 (adc data !! k).

Definition set_adc (data : data_t) (k : nat) (v : Z) : data_t :=
  mk_data (<[k := u16 v]> (adc data)).

(** ** Characters and file names *)

(** The code of a character constant. *)
Definition chr (c : ascii) : Z := Z.of_nat (nat_of_ascii c).

(** [strchr(s, c)] as an index into [s]; [None] is the null pointer. *)
Fixpoint strchr (s : list Z) (c : Z) : option nat :=
  match s with
  | [] => None
  | x :: s' => if x =? c then Some O else option_map S (strchr s' c)
  end.

(** The [while (true)] loop of [createBinFile]: [p] walks down from the
    dot; [None] is [error("Can't create file name")]. *)
Fixpoint next_version (name : list Z) (p : nat) : option (list Z) :=
  match p with
  | O => None
  | S p' =>
      let c := nth p' name 0 in
      if (c <? chr "0") || (c >? chr "9") then None
      else if negb (c =? chr "9") then Some (<[p' := c + 1]> name)
      else next_version (<[p' := chr "0"]> name) p'
  end.

Inductive found :=
| Free (name : list Z)          (* sd.exists(binName) is false *)
| NoName (msg : string)         (* error(msg) *)
| Searching.                    (* still in the loop *)

(** [while (sd.exists(binName)) { ... }], at most [fuel] turns. *)
Fixpoint find_free (fuel : nat) (exists_ : list Z -> bool) (name : list Z)
  : found :=
  match fuel with
  | O => Searching
  | S fuel' =>
      if exists_ name then
        match strchr name (chr ".") with
        | None => NoName "no dot in filename"
        | Some p =>
            match next_version name p with
            | None => NoName "Can't create file name"
            | Some name' => find_free fuel' exists_ name'
            end
        end
      else Free name
  end.

(** [createBinFile]: what [binName] is in the end, or the diagnostic. *)
Definition createBinFile (fuel : nat) (exists_ open_ preAllocate : list Z -> bool)
  (binName : list Z) : found :=
  match find_free fuel exists_ binName with
  | Free name =>
      if negb (open_ name) then NoName "open binName failed"
      else if negb (preAllocate name) then NoName "preAllocate failed"
      else Free name
  | o => o
  end.

Definition binName0 : list Z :=
  map chr (String.list_ascii_of_string "ExFatLogger00.bin").

(** Decimal value of the characters of [l], a character that is no digit
    counting as 0. *)
Definition digit_value (c : Z) : Z :=
  if (c <? chr "0") || (c >? chr "9") then 0 else c - chr "0".
Definition decimal (l : list Z) : Z :=
  fold_left (fun a c => 10 * a + digit_value c) l 0.



(** ** Lines from the serial port *)

Inductive line_result :=
| Waiting                                  (* no character has arrived *)
| Line (ok : bool) (str : list Z).         (* what was returned, and what
                                              was stored from [str[0]] on *)

(** The read loop; [str] is what has been stored and [rx] the characters
    that arrive each within 100 ms of the one before. *)
Fixpoint readLine (size : nat) (str rx : list Z) : bool * list Z :=
  match rx with
  | [] => (true, str ++ [0])
  | c :: rx' =>
      if c <? chr " " then (true, str ++ [0])
      else
        let str := str ++ [c] in
        if (size <=? length str)%nat then (false, str)
        else readLine size str rx'
  end.

Definition serialReadLine (size : nat) (rx : list Z) : line_result :=
  match rx with
  | [] => Waiting
  | _ => let (ok, str) := readLine size [] rx in Line ok str
  end.


(** ** Loops that read the file back *)

(** How a loop over the answers of its environment stands. *)
Inductive ending (A : Type) :=
| Again (a : A)                     (* at the loop test, answers used up *)
| Finished (a : A)                  (* the loop has been left *)
| Failed (msg : string) (a : A)     (* error(msg) *)
| Undefined (why : string) (a : A). (* C gives the turn no meaning *)
Arguments Again {A} a.
Arguments Finished {A} a.
Arguments Failed {A} msg a.
Arguments Undefined {A} why a.

Fixpoint loop_over {A I : Type} (turn : I -> A -> ending A) (ins : list I)
  (a : A) : ending A :=
  match ins with
  | [] => Again a
  | i :: ins' =>
      match turn i a with
      | Again a' => loop_over turn ins' a'
      | o => o
      end
  end.

Definition ending_map {A B : Type} (f : A -> B) (e : ending A) : ending B :=
  match e with
  | Again a => Again (f a)
  | Finished a => Finished (f a)
  | Failed msg a => Failed msg (f a)
  | Undefined why a => Undefined why (f a)
  end.

(** [strcpy(dot + 1, "csv")] on a name whose dot is at index [k]. *)
Definition csvName (name : list Z) (k : nat) : list Z :=
  take (S k) name ++ map chr (String.list_ascii_of_string "csv").

Section Logger.

(** [ADC_COUNT] and [sizeof(data_t)] come from [ExFatLogger.h]. *)
Variable ADC_COUNT : nat.
Variable sizeof_data_t : Z.

Variable brd : board.

(** Width of [size_t] on the target. *)
Variable SIZE_BITS : Z.
Definition usize (x : Z) : Z := x mod 2 ^ SIZE_BITS.

Definition FIFO_DIM : Z := 512 * FIFO_SIZE_SECTORS brd / sizeof_data_t.
Definition MAX_WRITE : Z := 512 / sizeof_data_t.

(** *** logRecord

    [analogRead] is the converter as seen during this call. A marker is
    written into [adc[0]] only. *)
Definition logRecord (data : data_t) (overrun : Z) (analogRead : nat -> Z)
  : data_t :=
  if negb (overrun =? 0) then
    let overrun := u16 (overrun + 1) in
    set_adc data 0 (Z.lor 0x8000 overrun)
  else
    fold_left (fun d i => set_adc d i (analogRead i)) (seq 0 ADC_COUNT) data.

(** *** printRecord *)

Inductive csv_line :=
| LineHeader
| LineOverruns (n : Z)
| LineData (nr : Z) (vals : list Z).

(** The marker test [data->adc[0] & 0X8000] and the count
    [data->adc[0] & 0X7FFF]. *)
Definition isOverrun (data : data_t) : bool :=
  negb (Z.land (adc_at data 0) 0x8000 =? 0).
Definition overrunCount (data : data_t) : Z :=
  u16 (Z.land (adc_at data 0) 0x7FFF).

(** [nr] is the function's static counter; [None] is [nullptr]. *)
Definition printRecord (nr : Z) (data : option data_t) : Z * csv_line :=
  match data with
  | None => (0, LineHeader)
  | Some d =>
      if isOverrun d then
        let n := overrunCount d in
        (u32 (nr + n), LineOverruns n)
      else
        (u32 (nr + 1), LineData nr (map (adc_at d) (seq 0 ADC_COUNT)))
  end.

(** ** The logging loop *)

(** What the loop does to the outside world, in order. *)
Inductive event :=
| EvLogRecord (overrun : Z) (r : data_t)  (* logRecord left [r] in its slot *)
| EvWrite (rs : list data_t) (ok : bool)  (* binFile.write of the span [rs] *)
| EvAvailable (n : Z)                     (* Serial.available() returned [n] *)
| EvLed                                   (* digitalWrite(ERROR_LED_PIN, HIGH) *)
| EvPrintDelta (d : Z)                    (* Serial.println(delta) *)
| EvError (msg : string).                 (* error(msg) *)

(** The locals of [logData], and the events so far. *)
Record state := mk_state {
  delta : Z;
  maxDelta : Z;
  maxLogMicros : Z;
  maxWriteMicros : Z;
  maxFifoCount : Z;
  fifoCount : Z;
  fifoHead : Z;
  fifoTail : Z;
  overrun : Z;
  maxOverrun : Z;
  totalOverrun : Z;
  fifoData : list data_t;
  logTime : Z;
  trace : list event
}.

Definition set_delta (v : Z) (s : state) : state :=
  mk_state v (maxDelta s) (maxLogMicros s) (maxWriteMicros s)
    (maxFifoCount s) (fifoCount s) (fifoHead s) (fifoTail s) (overrun s)
    (maxOverrun s) (totalOverrun s) (fifoData s) (logTime s) (trace s).
Definition set_maxDelta (v : Z) (s : state) : state :=
  mk_state (delta s) v (maxLogMicros s) (maxWriteMicros s)
    (maxFifoCount s) (fifoCount s) (fifoHead s) (fifoTail s) (overrun s)
    (maxOverrun s) (totalOverrun s) (fifoData s) (logTime s) (trace s).
Definition set_maxLogMicros (v : Z) (s : state) : state :=
  mk_state (delta s) (maxDelta s) v (maxWriteMicros s)
    (maxFifoCount s) (fifoCount s) (fifoHead s) (fifoTail s) (overrun s)
    (maxOverrun s) (totalOverrun s) (fifoData s) (logTime s) (trace s).
Definition set_maxWriteMicros (v : Z) (s : state) : state :=
  mk_state (delta s) (maxDelta s) (maxLogMicros s) v
    (maxFifoCount s) (fifoCount s) (fifoHead s) (fifoTail s) (overrun s)
    (maxOverrun s) (totalOverrun s) (fifoData s) (logTime s) (trace s).
Definition set_maxFifoCount (v : Z) (s : state) : state :=
  mk_state (delta s) (maxDelta s) (maxLogMicros s) (maxWriteMicros s)
    v (fifoCount s) (fifoHead s) (fifoTail s) (overrun s)
    (maxOverrun s) (totalOverrun s) (fifoData s) (logTime s) (trace s).
Definition set_fifoCount (v : Z) (s : state) : state :=
  mk_state (delta s) (maxDelta s) (maxLogMicros s) (maxWriteMicros s)
    (maxFifoCount s) v (fifoHead s) (fifoTail s) (overrun s)
    (maxOverrun s) (totalOverrun s) (fifoData s) (logTime s) (trace s).
Definition set_fifoHead (v : Z) (s : state) : state :=
  mk_state (delta s) (maxDelta s) (maxLogMicros s) (maxWriteMicros s)
    (maxFifoCount s) (fifoCount s) v (fifoTail s) (overrun s)
    (maxOverrun s) (totalOverrun s) (fifoData s) (logTime s) (trace s).
Definition set_fifoTail (v : Z) (s : state) : state :=
  mk_state (delta s) (maxDelta s) (maxLogMicros s) (maxWriteMicros s)
    (maxFifoCount s) (fifoCount s) (fifoHead s) v (overrun s)
    (maxOverrun s) (totalOverrun s) (fifoData s) (logTime s) (trace s).
Definition set_overrun (v : Z) (s : state) : state :=
  mk_state (delta s) (maxDelta s) (maxLogMicros s) (maxWriteMicros s)
    (maxFifoCount s) (fifoCount s) (fifoHead s) (fifoTail s) v
    (maxOverrun s) (totalOverrun s) (fifoData s) (logTime s) (trace s).
Definition set_maxOverrun (v : Z) (s : state) : state :=
  mk_state (delta s) (maxDelta s) (maxLogMicros s) (maxWriteMicros s)
    (maxFifoCount s) (fifoCount s) (fifoHead s) (fifoTail s) (overrun s)
    v (totalOverrun s) (fifoData s) (logTime s) (trace s).
Definition set_totalOverrun (v : Z) (s : state) : state :=
  mk_state (delta s) (maxDelta s) (maxLogMicros s) (maxWriteMicros s)
    (maxFifoCount s) (fifoCount s) (fifoHead s) (fifoTail s) (overrun s)
    (maxOverrun s) v (fifoData s) (logTime s) (trace s).
Definition set_fifoData (v : list data_t) (s : state) : state :=
  mk_state (delta s) (maxDelta s) (maxLogMicros s) (maxWriteMicros s)
    (maxFifoCount s) (fifoCount s) (fifoHead s) (fifoTail s) (overrun s)
    (maxOverrun s) (totalOverrun s) v (logTime s) (trace s).
Definition set_logTime (v : Z) (s : state) : state :=
  mk_state (delta s) (maxDelta s) (maxLogMicros s) (maxWriteMicros s)
    (maxFifoCount s) (fifoCount s) (fifoHead s) (fifoTail s) (overrun s)
    (maxOverrun s) (totalOverrun s) (fifoData s) v (trace s).
Definition emit (e : event) (s : state) : state :=
  mk_state (delta s) (maxDelta s) (maxLogMicros s) (maxWriteMicros s)
    (maxFifoCount s) (fifoCount s) (fifoHead s) (fifoTail s) (overrun s)
    (maxOverrun s) (totalOverrun s) (fifoData s) (logTime s)
    (trace s ++ [e]).

(** What the environment answers during one turn of the loop, by call
    site. *)
Record input := mk_input {
  micros_due : Z;          (* micros() in [delta = micros() - logTime] *)
  micros_wait : list Z;    (* micros() in the wait loop, one per turn *)
  micros_log0 : Z;         (* micros() before logRecord *)
  analogRead : nat -> Z;   (* analogRead(i) *)
  micros_log1 : Z;         (* micros() after logRecord *)
  isBusy : bool;           (* sd.card()->isBusy() *)
  micros_wr0 : Z;          (* micros() before binFile.write *)
  write_ret : Z;           (* value returned by binFile.write *)
  micros_wr1 : Z;          (* micros() after binFile.write *)
  available : Z            (* Serial.available() *)
}.

Inductive outcome :=
| Continue (s : state)              (* falls through to what follows *)
| Break (s : state)                 (* [break] *)
| Halted (msg : string) (s : state) (* error(msg): errorHalt() does not return *)
| Spinning (s : state).             (* still in the wait loop when the
                                       supplied clock readings end *)

Definition outcome_state (o : outcome) : state :=
  match o with
  | Continue s | Break s | Halted _ s | Spinning s => s
  end.

Definition and_then (o : outcome) (k : state -> outcome) : outcome :=
  match o with
  | Continue s => k s
  | _ => o
  end.

(** [if (c) { f }] for a body [f] that only assigns. *)
Definition when (c : bool) (f : state -> state) (s : state) : state :=
  if c then f s else s.

Definition error (msg : string) (s : state) : outcome :=
  Halted msg (emit (EvError msg) s).

(** [micros() - t] in [uint32_t]. *)
Definition since (now t : Z) : Z := u32 (u32 now - t).

(** [while (delta < 0) { delta = micros() - logTime; }] *)
Fixpoint wait_due (due d : Z) (ticks : list Z) : option Z :=
  if d <? 0 then
    match ticks with
    | [] => None
    | t :: ticks' => wait_due due (i32 (since t due)) ticks'
    end
  else Some d.

Definition deadline (i : input) (s : state) : outcome :=
  let s := set_logTime (u32 (logTime s + LOG_INTERVAL_USEC)) s in
  let s := set_delta (i32 (since (micros_due i) (logTime s))) s in
  if delta s >? 0 then
    error "Rate too fast" (emit (EvPrintDelta (delta s)) s)
  else
    match wait_due (logTime s) (delta s) (micros_wait i) with
    | None => Spinning s
    | Some d => Continue (set_delta d s)
    end.

(** The record [fifoData[k]]. *)
Definition slot_at (fd : list data_t) (k : Z) : data_t :=
  default (mk_data []) (fd !! Z.to_nat k).

Definition push (i : input) (s : state) : outcome :=
  if fifoCount s <? FIFO_DIM then
    let m := u32 (micros_log0 i) in
    let r := logRecord (slot_at (fifoData s) (fifoHead s)) (overrun s)
               (analogRead i) in
    let s := set_fifoData (<[Z.to_nat (fifoHead s) := r]> (fifoData s)) s in
    let s := emit (EvLogRecord (overrun s) r) s in
    let m := since (micros_log1 i) m in
    let s := when (m >? maxLogMicros s) (set_maxLogMicros m) s in
    let s := set_fifoHead (if fifoHead s <? usize (FIFO_DIM - 1)
                           then usize (fifoHead s + 1) else 0) s in
    let s := set_fifoCount (usize (fifoCount s + 1)) s in
    let s := when (negb (overrun s =? 0))
               (fun s =>
                  let s := when (overrun s >? maxOverrun s)
                             (set_maxOverrun (overrun s)) s in
                  set_overrun 0 s) s in
    Continue s
  else
    let s := set_totalOverrun (u32 (totalOverrun s + 1)) s in
    let s := set_overrun (u16 (overrun s + 1)) s in
    if overrun s >? 0xFFF then error "too many overruns" s
    else Continue (when (ERROR_LED_PIN >=? 0) (emit EvLed) s).

(** [if (delta > maxDelta) maxDelta = delta;] *)
Definition jitter (s : state) : outcome :=
  Continue (when (delta s >? maxDelta s) (set_maxDelta (delta s)) s).

(** The number of records [nw] chosen for one write. *)
Definition write_nw (s : state) : Z :=
  let nw := if fifoHead s >? fifoTail s then fifoCount s
            else usize (FIFO_DIM - fifoTail s) in
  if nw >? MAX_WRITE then MAX_WRITE else nw.

(** The records in the [nb] bytes that start at [&fifoData[fifoTail]]. *)
Definition write_span (s : state) (nb : Z) : list data_t :=
  take (Z.to_nat (nb / sizeof_data_t))
       (drop (Z.to_nat (fifoTail s)) (fifoData s)).

Definition write (i : input) (s : state) : outcome :=
  if negb (isBusy i) then
    let nw := write_nw s in
    let nb := usize (nw * sizeof_data_t) in
    let usec := u32 (micros_wr0 i) in
    if negb (nb =? usize (write_ret i)) then
      error "write binFile failed" (emit (EvWrite (write_span s nb) false) s)
    else
      let s := emit (EvWrite (write_span s nb) true) s in
      let usec := since (micros_wr1 i) usec in
      let s := when (usec >? maxWriteMicros s) (set_maxWriteMicros usec) s in
      let s := set_fifoTail (if usize (fifoTail s + nw) <? FIFO_DIM
                             then usize (fifoTail s + nw) else 0) s in
      let s := when (fifoCount s >? maxFifoCount s)
                 (set_maxFifoCount (fifoCount s)) s in
      let s := set_fifoCount (usize (fifoCount s - nw)) s in
      let s := emit (EvAvailable (available i)) s in
      if negb (available i =? 0) then Break s else Continue s
  else Continue s.

(** One turn of [while (1) { ... }]. *)
Definition iteration (i : input) (s : state) : outcome :=
  and_then (and_then (and_then (deadline i s) (push i)) jitter) (write i).

(** The loop on the answers [ins], one [input] per turn; [Continue] means
    the loop is about to start its next turn. *)
Fixpoint logLoop (ins : list input) (s : state) : outcome :=
  match ins with
  | [] => Continue s
  | i :: ins' =>
      match iteration i s with
      | Continue s' => logLoop ins' s'
      | o => o
      end
  end.

(** The locals at [while (1)]: [t0] is the first [micros()], [fd] what the
    stack holds where [fifoData] is placed. [delta] is assigned before it
    is read. *)
Definition logData_init (t0 : Z) (fd : list data_t) : state :=
  mk_state 0 0 0 0 0 0 0 0 0 0 0 fd (u32 t0) [].

(** [logData] up to the end of its loop; the report, [truncate] and
    [sync] that follow a [break] change none of the locals. *)
Definition logData (t0 : Z) (fd : list data_t) (ins : list input) : outcome :=
  logLoop ins (logData_init t0 fd).

(** ** Reading the trace and the buffer *)

(** Records produced by [logRecord], oldest first. *)
Definition logged (tr : list event) : list data_t :=
  omap (fun e => match e with EvLogRecord _ r => Some r | _ => None end) tr.

(** Records accepted by [binFile.write], oldest first. *)
Definition written (tr : list event) : list data_t :=
  concat (omap (fun e => match e with
                         | EvWrite rs true => Some rs
                         | _ => None
                         end) tr).

(** Number of calls of [Serial.available()]. *)
Definition polls (tr : list event) : nat :=
  length (omap (fun e => match e with
                         | EvAvailable n => Some n
                         | _ => None
                         end) tr).

(** Number of calls of [binFile.write]. *)
Definition writes (tr : list event) : nat :=
  length (omap (fun e => match e with
                         | EvWrite rs _ => Some rs
                         | _ => None
                         end) tr).

(** The [fifoCount] records from [fifoTail] on, around the end of the
    array. *)
Definition buffered (s : state) : list data_t :=
  map (fun k => slot_at (fifoData s)
                  ((fifoTail s + Z.of_nat k) mod FIFO_DIM))
      (seq 0 (Z.to_nat (fifoCount s))).

(** The running maxima are within their ranges. *)
Definition stats_ok (s : state) : Prop :=
  0 <= maxDelta s /\ 0 <= maxOverrun s <= 0xFFF
  /\ 0 <= maxFifoCount s <= FIFO_DIM.

(** ** The record loops of binaryToCsv and printData

    [for (i = 0; i < nr; i++) printRecord(&csvFile, &binData[i]);] with the
    static counter of [printRecord] threaded through. *)
Fixpoint printRecords (nr : Z) (rs : list data_t) : Z * list csv_line :=
  match rs with
  | [] => (nr, [])
  | r :: rs' =>
      let (nr1, line) := printRecord nr (Some r) in
      let (nr2, lines) := printRecords nr1 rs' in
      (nr2, line :: lines)
  end.

(** What [binaryToCsv] and [printData] send out, in order. *)
Inductive sent :=
| SentText (msg : string)   (* Serial.println(F(msg)) *)
| SentOpen (name : list Z)  (* csvFile.open(name, ...) has succeeded *)
| SentLine (l : csv_line)   (* a line of [printRecord] *)
| SentPercent (pct : Z)     (* Serial.print(pct, DEC); Serial.println('%') *)
| SentSync.                 (* csvFile.sync() *)

Definition lines_of (o : list sent) : list csv_line :=
  omap (fun e => match e with SentLine l => Some l | _ => None end) o.

(** The static counter of [printRecord] and what has been sent. *)
Record printer := mk_printer { nr : Z; out : list sent }.

(** [printRecord(pr, nullptr)] *)
Definition print_header (p : printer) : printer :=
  let (nr', line) := printRecord (nr p) None in
  mk_printer nr' (out p ++ [SentLine line]).

(** *** binaryToCsv *)

(** What the environment answers before the read loop. *)
Record csv_setup := mk_csv_setup {
  isOpen : bool;          (* binFile.isOpen() *)
  getName : list Z;       (* csvName after binFile.getName *)
  csv_open : bool;        (* csvFile.open(csvName, ...) *)
  millis_start : Z        (* millis() that starts tPct *)
}.

(** The locals of [binaryToCsv] that its read loop uses. *)
Record csv_state := mk_csv { pr : printer; lastPct : Z; tPct : Z }.

(** What the environment answers during one turn of the read loop. *)
Record csv_input := mk_csv_input {
  stop_before : Z;        (* Serial.available() in the loop test *)
  bin_available : Z;      (* binFile.available() in the loop test *)
  read_nb : Z;            (* binFile.read(binData, sizeof(binData)) *)
  binData : list data_t;  (* binData after the read *)
  millis_pct : Z;         (* millis() in the progress test *)
  curPosition : Z;        (* binFile.curPosition() *)
  fileSize : Z;           (* binFile.fileSize() *)
  millis_tPct : Z;        (* millis() assigned to tPct *)
  stop_after : Z          (* Serial.available() after the chunk *)
}.

(** The records [binData[0]] to [binData[nr - 1]], for
    [nr = nb/sizeof(data_t)]. *)
Definition whole_records (i : csv_input) : list data_t :=
  take (Z.to_nat (usize (read_nb i) / sizeof_data_t)) (binData i).

(** [if ((millis() - tPct) > 1000) { ... }]; the quotient is taken in
    [uint64_t] and stored in a [uint8_t]. *)
Definition print_progress (i : csv_input) (c : csv_state)
  : ending csv_state :=
  if since (millis_pct i) (tPct c) >? 1000 then
    if u64 (fileSize i) / 100 =? 0 then Undefined "division by zero" c
    else
      let pct := u8 (u64 (curPosition i) / (u64 (fileSize i) / 100)) in
      if negb (pct =? lastPct c) then
        Again (mk_csv (mk_printer (nr (pr c))
                         (out (pr c) ++ [SentPercent pct; SentSync]))
                 pct (u32 (millis_tPct i)))
      else Again c
  else Again c.

(** The loop test and one turn of
    [while (!Serial.available() && binFile.available()) { ... }]. *)
Definition csvTurn (i : csv_input) (c : csv_state) : ending csv_state :=
  if negb (stop_before i =? 0) || (bin_available i =? 0) then Finished c
  else if read_nb i <=? 0 then Failed "read binFile failed" c
  else if usize (read_nb i) / sizeof_data_t >? FIFO_DIM then
    Undefined "binData index out of range" c
  else
    let (nr', lines) := printRecords (nr (pr c)) (whole_records i) in
    let c := mk_csv (mk_printer nr' (out (pr c) ++ map SentLine lines))
               (lastPct c) (tPct c) in
    match print_progress i c with
    | Again c => if negb (stop_after i =? 0) then Finished c else Again c
    | o => o
    end.

(** [binaryToCsv] up to the end of its read loop, on the printer [p] as
    earlier calls left it. [csvName] is kept in the bytes of [binData];
    [rewind], [serialClearInput], [close] and the other messages change
    nothing that the loop reads. *)
Definition binaryToCsv (p : printer) (su : csv_setup) (ins : list csv_input)
  : ending printer :=
  if negb (isOpen su) then
    Finished (mk_printer (nr p)
                (out p ++ [SentText "No current binary file"]))
  else
    match strchr (getName su) (chr ".") with
    | None => Failed "no dot in filename" p
    | Some k =>
        if FIFO_DIM * sizeof_data_t <? Z.of_nat k + 5 then
          Undefined "csvName index out of range" p
        else if negb (csv_open su) then Failed "open csvFile failed" p
        else
          let p := mk_printer (nr p)
                     (out p ++ [SentOpen (csvName (getName su) k)]) in
          ending_map pr
            (loop_over csvTurn ins
               (mk_csv (print_header p) 0 (u32 (millis_start su))))
    end.

(** *** printData *)






(** By how much [printRecord] advances its counter on [r], and how many of
    these are samples that were never taken. *)
Definition weight (r : data_t) : Z :=
  if isOverrun r then overrunCount r else 1.
Definition lost (r : data_t) : Z :=
  if isOverrun r then overrunCount r - 1 else 0.

Definition tally (f : data_t -> Z) (rs : list data_t) : Z :=
  fold_right (fun r a => f r + a) 0 rs.

(** ** Invariants of the loop *)

(** Bookkeeping of the ring buffer, and its relation to what has been
    logged and written so far. *)
Record ring_ok (s : state) : Prop := mk_ring_ok {
  count_range : 0 <= fifoCount s <= FIFO_DIM;
  head_range : 0 <= fifoHead s < FIFO_DIM;
  tail_range : 0 <= fifoTail s < FIFO_DIM;
  head_tail : fifoHead s = (fifoTail s + fifoCount s) mod FIFO_DIM;
  data_length : Z.of_nat (length (fifoData s)) = FIFO_DIM;
  data_shape : Forall (fun d => length (adc d) = ADC_COUNT) (fifoData s);
  history : logged (trace s) = written (trace s) ++ buffered s
}.

(** Number of logged records not yet written. *)
Definition unwritten (s : state) : Z :=
  Z.of_nat (length (logged (trace s)))
  - Z.of_nat (length (written (trace s))).

(** Empty: every logged record has been written. Full: the records not
    yet written occupy every slot. *)
Definition is_empty (s : state) : Prop := logged (trace s) = written (trace s).
Definition is_full (s : state) : Prop := unwritten s = FIFO_DIM.

Definition loop_inv (s : state) : Prop :=
  ring_ok s /\ 0 <= overrun s <= 0xFFF.

(** States in which the loop starts a turn. *)
Inductive reachable : state -> Prop :=
| reach_init t0 fd :
    Z.of_nat (length fd) = FIFO_DIM ->
    Forall (fun d => length (adc d) = ADC_COUNT) fd ->
    reachable (logData_init t0 fd)
| reach_turn i s s' :
    reachable s -> iteration i s = Continue s' -> reachable s'.

(** Number of turns [logLoop] starts on [ins]. *)
Fixpoint turns (ins : list input) (s : state) : nat :=
  match ins with
  | [] => O
  | i :: ins' =>
      S (match iteration i s with
         | Continue s' => turns ins' s'
         | _ => O
         end)
  end.

(** Deltas seen by the wait loop: the first one, then one per reading. *)
Definition deltas (due d : Z) (ticks : list Z) : list Z :=
  d :: map (fun t => i32 (since t due)) ticks.

(** [s'] has the ring buffer of [s]. *)
Definition same_buffer (s s' : state) : Prop :=
  fifoCount s' = fifoCount s /\ fifoHead s' = fifoHead s
  /\ fifoTail s' = fifoTail s /\ fifoData s' = fifoData s.

(** Between [s] and [s'] no record was logged, no write was issued and
    the stop signal was not polled. *)
Definition quiet (s s' : state) : Prop :=
  logged (trace s') = logged (trace s)
  /\ written (trace s') = written (trace s)
  /\ writes (trace s') = writes (trace s)
  /\ polls (trace s') = polls (trace s).

(** * Properties *)

#[local] Arguments Z.pow : simpl never.
#[local] Arguments Z.modulo : simpl never.
#[local] Arguments Z.div : simpl never.
#[local] Arguments Z.mul : simpl never.
#[local] Arguments Z.add : simpl never.
#[local] Arguments Z.sub : simpl never.
#[local] Arguments Z.of_nat : simpl never.
#[local] Arguments Z.to_nat : simpl never.
#[local] Arguments Z.lor : simpl never.
#[local] Arguments Z.land : simpl never.

(** ** The codec *)

Lemma u16_small x : 0 <= x < 2 ^ 16 -> u16 x = x.
Proof. intros H. unfold u16. apply Z.mod_small. exact H. Qed.

Lemma tag_land n : 0 <= n < 0x8000 -> Z.land 0x8000 n = 0.
Proof.
  intros H. apply Z.bits_inj'. intros k Hk.
  rewrite Z.land_spec, Z.bits_0.
  destruct (Z.eq_dec k 15) as [-> | Hne].
  - assert (Z.testbit n 15 = false) as ->; [| apply andb_false_r].
    apply Z.testbit_false; [lia |].
    rewrite Z.div_small by (change (2 ^ 15) with 0x8000; lia). reflexivity.
  - change 0x8000 with (2 ^ 15). rewrite Z.pow2_bits_false by lia. reflexivity.
Qed.

Lemma tag_lor n : 0 <= n < 0x8000 -> Z.lor 0x8000 n = 0x8000 + n.
Proof.
  intros H. pose proof (Z.add_lor_land 0x8000 n) as E.
  rewrite (tag_land n H) in E. lia.
Qed.

Lemma tag_test n : 0 <= n < 0x8000 -> Z.land (0x8000 + n) 0x8000 = 0x8000.
Proof.
  intros H. rewrite <- (tag_lor n H).
  rewrite Z.land_lor_distr_l, Z.land_diag, (Z.land_comm n), (tag_land n H).
  apply Z.lor_0_r.
Qed.

Lemma tag_count n : 0 <= n < 0x8000 -> Z.land (0x8000 + n) 0x7FFF = n.
Proof.
  intros H. change 0x7FFF with (Z.ones 15).
  rewrite Z.land_ones by lia.
  change (2 ^ 15) with 0x8000.
  rewrite <- (Z.mul_1_l 0x8000) at 1.
  rewrite Z.add_comm, Z.mod_add by lia. apply Z.mod_small. lia.
Qed.

Lemma adc_at_set_adc_0 d v :
  adc d <> [] -> adc_at (set_adc d 0 v) 0 = u16 v.
Proof.
  intros H. unfold adc_at, set_adc. simpl.
  destruct (adc d) as [|a l]; [congruence | reflexivity].
Qed.

Lemma logRecord_marker d n rd :
  n <> 0 -> logRecord d n rd = set_adc d 0 (Z.lor 0x8000 (u16 (n + 1))).
Proof.
  intros H. unfold logRecord.
  destruct (n =? 0) eqn:E; [apply Z.eqb_eq in E; congruence | reflexivity].
Qed.

(** The first channel of a marker for a streak [n] whose successor fits
    below the tag bit. *)
Lemma marker_first_channel d n rd :
  adc d <> [] -> 1 <= n -> n + 1 < 0x8000 ->
  adc_at (logRecord d n rd) 0 = 0x8000 + (n + 1).
Proof.
  intros Hd H1 H2. rewrite logRecord_marker by lia.
  rewrite adc_at_set_adc_0 by exact Hd.
  rewrite (u16_small (n + 1)) by (change (2 ^ 16) with 65536; lia).
  rewrite tag_lor by lia.
  apply u16_small. change (2 ^ 16) with 65536. lia.
Qed.

Lemma marker_decoded d n rd :
  adc d <> [] -> 1 <= n -> n + 1 < 0x8000 ->
  isOverrun (logRecord d n rd) = true
  /\ overrunCount (logRecord d n rd) = n + 1.
Proof.
  intros Hd H1 H2. unfold isOverrun, overrunCount.
  rewrite marker_first_channel by (try exact Hd; lia).
  rewrite tag_test, tag_count by lia. split; [reflexivity |].
  apply u16_small. change (2 ^ 16) with 65536. lia.
Qed.

Lemma marker_printed d n rd nr :
  adc d <> [] -> 1 <= n -> n + 1 < 0x8000 ->
  printRecord nr (Some (logRecord d n rd))
  = (u32 (nr + (n + 1)), LineOverruns (n + 1)).
Proof.
  intros Hd H1 H2. unfold printRecord.
  destruct (marker_decoded d n rd Hd H1 H2) as [-> ->]. reflexivity.
Qed.

(** C1 (amended): for every streak count n with 1 <= n <= 0x7FFE, the
    record that logRecord makes for n is a marker, and decoding it (the low
    15 bits of the first channel, as printRecord does) gives n + 1: the
    count plus the slot the marker itself takes. printRecord prints that
    count and advances its record number by it. *)
Theorem marker_decodes_to_successor d n rd :
  adc d <> [] -> 1 <= n <= 0x7FFE ->
  isOverrun (logRecord d n rd) = true
  /\ overrunCount (logRecord d n rd) = n + 1
  /\ forall nr, printRecord nr (Some (logRecord d n rd))
                = (u32 (nr + (n + 1)), LineOverruns (n + 1)).
Proof.
  intros Hd Hn.
  destruct (marker_decoded d n rd Hd ltac:(lia) ltac:(lia)) as [H1 H2].
  split; [exact H1 |]. split; [exact H2 |].
  intros nr. apply marker_printed; try exact Hd; lia.
Qed.

(** C6 (amended): in a marker made by logRecord only the first channel
    slot is set, to the tag bit and the incremented streak count; every
    other channel slot keeps what the record held before the call, and no
    converter reading enters the record. *)
Theorem marker_sets_first_channel_only d n rd :
  n <> 0 ->
  adc (logRecord d n rd)
  = <[0%nat := u16 (Z.lor 0x8000 (u16 (n + 1)))]> (adc d)
  /\ (forall k, k <> 0%nat -> adc_at (logRecord d n rd) k = adc_at d k)
  /\ (forall rd', logRecord d n rd' = logRecord d n rd).
Proof.
  intros Hn. rewrite logRecord_marker by exact Hn. repeat split.
  - intros k Hk. unfold adc_at, set_adc. simpl.
    rewrite list_lookup_insert_ne by congruence. reflexivity.
  - intros rd'. apply logRecord_marker. exact Hn.
Qed.

(** ** Sizes *)

(** The array [fifoData] has at least one slot. *)
Hypothesis H_dim : 0 < FIFO_DIM.
Hypothesis H_bits : 16 <= SIZE_BITS.

Lemma sizeof_pos : 0 < sizeof_data_t.
Proof.
  pose proof H_dim as H. unfold FIFO_DIM in H.
  assert (0 <= 512 * FIFO_SIZE_SECTORS brd) by (destruct brd; simpl; lia).
  destruct (Z_lt_le_dec 0 sizeof_data_t) as [L | L]; [exact L | exfalso].
  destruct (Z.eq_dec sizeof_data_t 0) as [E | E].
  - rewrite E, Z.div_0_r in H. lia.
  - pose proof (Z.div_mod (512 * FIFO_SIZE_SECTORS brd) sizeof_data_t E).
    pose proof (Z.mod_neg_bound (512 * FIFO_SIZE_SECTORS brd) sizeof_data_t
                  ltac:(lia)).
    nia.
Qed.

Lemma FIFO_DIM_le : FIFO_DIM <= 8192.
Proof.
  pose proof sizeof_pos as Hs. unfold FIFO_DIM.
  assert (512 * FIFO_SIZE_SECTORS brd <= 8192) by (destruct brd; simpl; lia).
  assert (0 <= 512 * FIFO_SIZE_SECTORS brd) by (destruct brd; simpl; lia).
  apply Z.div_le_upper_bound; [lia |]. nia.
Qed.

Lemma MAX_WRITE_range : 0 <= MAX_WRITE /\ MAX_WRITE * sizeof_data_t <= 512.
Proof.
  pose proof sizeof_pos as Hs. unfold MAX_WRITE. split.
  - apply Z.div_pos; lia.
  - rewrite Z.mul_comm. apply Z.mul_div_le. exact Hs.
Qed.

Lemma usize_small x : 0 <= x < 65536 -> usize x = x.
Proof.
  intros H. unfold usize. apply Z.mod_small.
  assert (2 ^ 16 <= 2 ^ SIZE_BITS) by (apply Z.pow_le_mono_r; lia).
  change (2 ^ 16) with 65536 in *. lia.
Qed.

(** ** Traces *)

Lemma logged_emit tr e :
  logged (tr ++ [e])
  = logged tr ++ match e with EvLogRecord _ r => [r] | _ => [] end.
Proof. unfold logged. rewrite omap_app. destruct e; reflexivity. Qed.

Lemma written_emit tr e :
  written (tr ++ [e])
  = written tr ++ match e with EvWrite rs true => rs | _ => [] end.
Proof.
  unfold written. rewrite omap_app, concat_app.
  destruct e as [| rs [] | | | |]; simpl; rewrite ?app_nil_r; reflexivity.
Qed.

Lemma writes_emit tr e :
  writes (tr ++ [e])
  = (writes tr + match e with EvWrite _ _ => 1 | _ => 0 end)%nat.
Proof.
  unfold writes. rewrite omap_app, length_app. destruct e; reflexivity.
Qed.

Lemma polls_emit tr e :
  polls (tr ++ [e])
  = (polls tr + match e with EvAvailable _ => 1 | _ => 0 end)%nat.
Proof.
  unfold polls. rewrite omap_app, length_app. destruct e; reflexivity.
Qed.

Lemma quiet_refl s : quiet s s.
Proof. repeat split. Qed.

Lemma quiet_trans s1 s2 s3 : quiet s1 s2 -> quiet s2 s3 -> quiet s1 s3.
Proof. unfold quiet. intros (?&?&?&?) (?&?&?&?). repeat split; congruence. Qed.

Lemma same_buffer_refl s : same_buffer s s.
Proof. repeat split. Qed.

Lemma same_buffer_trans s1 s2 s3 :
  same_buffer s1 s2 -> same_buffer s2 s3 -> same_buffer s1 s3.
Proof.
  unfold same_buffer. intros (?&?&?&?) (?&?&?&?). repeat split; congruence.
Qed.

Lemma buffered_same s s' : same_buffer s s' -> buffered s' = buffered s.
Proof. intros (Hc & _ & Ht & Hd). unfold buffered. rewrite Hc, Ht, Hd. reflexivity. Qed.

(** Unfolds the field updates of a state. *)
Ltac setters :=
  unfold error in *;
  unfold set_delta, set_maxDelta, set_maxLogMicros, set_maxWriteMicros,
    set_maxFifoCount, set_fifoCount, set_fifoHead, set_fifoTail,
    set_overrun, set_maxOverrun, set_totalOverrun, set_fifoData,
    set_logTime, emit in *;
  cbn [delta maxDelta maxLogMicros maxWriteMicros maxFifoCount fifoCount
       fifoHead fifoTail overrun maxOverrun totalOverrun fifoData logTime
       trace outcome_state] in *.

Lemma when_true f s : when true f s = f s.
Proof. reflexivity. Qed.

Lemma when_false f s : when false f s = s.
Proof. reflexivity. Qed.

(** Decides the innermost guarded assignment of the goal. *)
Ltac decide_when :=
  match goal with
  | |- context [when ?c ?f ?s] =>
      lazymatch c with
      | context [when _ _ _] => fail
      | _ => let b := fresh "G" in
             destruct c eqn:b; rewrite ?when_true, ?when_false
      end
  end.

Ltac fields := setters; repeat (decide_when; setters).

Ltac trace_emit :=
  rewrite ?logged_emit, ?written_emit, ?writes_emit, ?polls_emit;
  cbv beta iota; rewrite ?app_nil_r, ?Nat.add_0_r.

(** ** The deadline *)

Lemma wait_due_some due ticks : forall d d',
  wait_due due d ticks = Some d' ->
  0 <= d'
  /\ exists pre post,
       deltas due d ticks = pre ++ d' :: post /\ Forall (fun x => x < 0) pre.
Proof.
  unfold deltas. induction ticks as [|t ticks IH]; intros d d'; simpl.
  - destruct (d <? 0) eqn:E; [discriminate |]. intros [= <-].
    apply Z.ltb_ge in E. split; [exact E |]. exists [], []. split; [reflexivity | constructor].
  - destruct (d <? 0) eqn:E.
    + intros H. apply IH in H as (Hd' & pre & post & Heq & Hpre).
      split; [exact Hd' |]. exists (d :: pre), post. split.
      * simpl. rewrite <- Heq. reflexivity.
      * constructor; [apply Z.ltb_lt; exact E | exact Hpre].
    + intros [= <-]. apply Z.ltb_ge in E. split; [exact E |].
      exists [], (map (fun t => i32 (since t due)) (t :: ticks)).
      split; [reflexivity | constructor].
Qed.

Lemma wait_due_none due ticks : forall d,
  wait_due due d ticks = None <-> Forall (fun x => x < 0) (deltas due d ticks).
Proof.
  unfold deltas. induction ticks as [|t ticks IH]; intros d; simpl.
  - destruct (d <? 0) eqn:E.
    + apply Z.ltb_lt in E. split; [intros _; repeat constructor; exact E | reflexivity].
    + apply Z.ltb_ge in E. split; [discriminate |].
      intros H. inversion H; subst. lia.
  - destruct (d <? 0) eqn:E.
    + apply Z.ltb_lt in E. rewrite IH. split.
      * intros H. constructor; [exact E | exact H].
      * intros H. inversion H; subst. assumption.
    + apply Z.ltb_ge in E. split; [discriminate |].
      intros H. inversion H; subst. lia.
Qed.

Lemma deadline_frame i s :
  let s' := outcome_state (deadline i s) in
  same_buffer s s' /\ quiet s s'
  /\ overrun s' = overrun s /\ totalOverrun s' = totalOverrun s
  /\ logTime s' = u32 (logTime s + LOG_INTERVAL_USEC).
Proof.
  unfold deadline. fields.
  destruct (_ >? 0); [| destruct (wait_due _ _ _)]; fields;
    unfold same_buffer, quiet; fields; trace_emit; repeat split.
Qed.

(** ** Arithmetic of the indices *)

Lemma wrap_next D t c h :
  0 < D -> 0 <= h < D -> h = (t + c) mod D ->
  (if h <? D - 1 then h + 1 else 0) = (t + (c + 1)) mod D.
Proof.
  intros HD Hh E. pose proof (Z.div_mod (t + c) D ltac:(lia)) as Hq.
  rewrite <- E in Hq. destruct (h <? D - 1) eqn:L.
  - apply Z.ltb_lt in L. apply Z.mod_unique with (q := (t + c) / D); lia.
  - apply Z.ltb_ge in L. apply Z.mod_unique with (q := (t + c) / D + 1); lia.
Qed.

Lemma wrap_distinct D t k c :
  0 < D -> 0 <= k < c -> c < D -> (t + k) mod D <> (t + c) mod D.
Proof.
  intros HD Hk Hc E.
  pose proof (Z.div_mod (t + k) D ltac:(lia)) as H1.
  pose proof (Z.div_mod (t + c) D ltac:(lia)) as H2.
  rewrite E in H1.
  assert (c - k = D * ((t + c) / D - (t + k) / D)) as H3 by lia.
  destruct (Z_lt_le_dec 0 ((t + c) / D - (t + k) / D)); nia.
Qed.

Lemma wrap_range D x : 0 < D -> 0 <= x mod D < D.
Proof. intros HD. apply Z.mod_pos_bound. exact HD. Qed.

(** Where the head is, given tail and count. *)
Lemma head_cases D t c h :
  0 < D -> 0 <= t < D -> 0 <= c <= D -> h = (t + c) mod D ->
  (t + c < D /\ h = t + c) \/ (D <= t + c /\ h = t + c - D).
Proof.
  intros HD Ht Hc E. destruct (Z_lt_le_dec (t + c) D) as [L | L].
  - left. split; [exact L |]. rewrite E. apply Z.mod_small. lia.
  - right. split; [exact L |]. rewrite E. symmetry.
    apply Z.mod_unique with (q := 1); lia.
Qed.

Lemma wrap_advance D t n :
  0 < D -> 0 <= t -> 0 <= n -> t + n <= D ->
  (if t + n <? D then t + n else 0) = (t + n) mod D.
Proof.
  intros HD Ht Hn Hle. destruct (t + n <? D) eqn:L.
  - apply Z.ltb_lt in L. symmetry. apply Z.mod_small. lia.
  - apply Z.ltb_ge in L. apply Z.mod_unique with (q := 1); lia.
Qed.

(** ** Records in the slots *)

Lemma set_adc_length d k v : length (adc (set_adc d k v)) = length (adc d).
Proof. unfold set_adc. simpl. apply length_insert. Qed.

Lemma logRecord_length d n rd :
  length (adc (logRecord d n rd)) = length (adc d).
Proof.
  unfold logRecord. destruct (negb (n =? 0)); [apply set_adc_length |].
  generalize (seq 0 ADC_COUNT). intros l. revert d.
  induction l as [|k l IH]; intros d; simpl; [reflexivity |].
  rewrite IH. apply set_adc_length.
Qed.

Lemma slot_at_lookup (fd : list data_t) k :
  0 <= k < Z.of_nat (length fd) ->
  fd !! Z.to_nat k = Some (slot_at fd k).
Proof.
  intros H. unfold slot_at.
  destruct (lookup_lt_is_Some_2 fd (Z.to_nat k) ltac:(lia)) as [x ->].
  reflexivity.
Qed.

Lemma slot_at_shape fd k :
  Forall (fun d => length (adc d) = ADC_COUNT) fd ->
  0 <= k < Z.of_nat (length fd) ->
  length (adc (slot_at fd k)) = ADC_COUNT.
Proof.
  intros HF Hk. apply slot_at_lookup in Hk.
  exact (Forall_lookup_1 _ _ _ _ HF Hk).
Qed.

Lemma slot_at_insert_eq (fd : list data_t) k r :
  0 <= k < Z.of_nat (length fd) ->
  slot_at (<[Z.to_nat k := r]> fd) k = r.
Proof.
  intros H. unfold slot_at. rewrite list_lookup_insert_eq by lia. reflexivity.
Qed.

Lemma slot_at_insert_ne (fd : list data_t) j k r :
  0 <= j -> 0 <= k -> j <> k ->
  slot_at (<[Z.to_nat j := r]> fd) k = slot_at fd k.
Proof.
  intros Hj Hk Hne. unfold slot_at.
  rewrite list_lookup_insert_ne by lia. reflexivity.
Qed.

(** ** The push phase *)

Lemma buffered_push_raw (fd : list data_t) t c h r :
  0 <= t -> 0 <= c < FIFO_DIM -> h = (t + c) mod FIFO_DIM ->
  Z.of_nat (length fd) = FIFO_DIM ->
  map (fun k => slot_at (<[Z.to_nat h := r]> fd)
                  ((t + Z.of_nat k) mod FIFO_DIM))
      (seq 0 (Z.to_nat (c + 1)))
  = map (fun k => slot_at fd ((t + Z.of_nat k) mod FIFO_DIM))
        (seq 0 (Z.to_nat c)) ++ [r].
Proof.
  intros Ht Hc Hh Hlen.
  assert (0 <= h < FIFO_DIM) as Hhr by (subst h; apply wrap_range; lia).
  replace (Z.to_nat (c + 1)) with (S (Z.to_nat c)) by lia.
  rewrite seq_S, map_app. simpl. f_equal.
  - apply map_ext_in. intros k Hk. apply in_seq in Hk.
    apply slot_at_insert_ne; [lia | apply wrap_range; lia |].
    subst h. intros E. symmetry in E. revert E.
    apply wrap_distinct; lia.
  - f_equal. replace (Z.of_nat (Z.to_nat c)) with c by lia.
    rewrite <- Hh. apply slot_at_insert_eq. lia.
Qed.

(** What a push into a buffer with room leaves behind. *)
Lemma push_room i s :
  fifoCount s < FIFO_DIM ->
  exists s',
    push i s = Continue s'
    /\ fifoData s'
       = <[Z.to_nat (fifoHead s) :=
             logRecord (slot_at (fifoData s) (fifoHead s)) (overrun s)
               (analogRead i)]> (fifoData s)
    /\ fifoHead s' = (if fifoHead s <? usize (FIFO_DIM - 1)
                      then usize (fifoHead s + 1) else 0)
    /\ fifoCount s' = usize (fifoCount s + 1)
    /\ fifoTail s' = fifoTail s
    /\ trace s'
       = trace s ++ [EvLogRecord (overrun s)
                       (logRecord (slot_at (fifoData s) (fifoHead s))
                          (overrun s) (analogRead i))]
    /\ overrun s' = 0
    /\ totalOverrun s' = totalOverrun s
    /\ logTime s' = logTime s /\ delta s' = delta s.
Proof.
  intros Hc. unfold push. apply Z.ltb_lt in Hc. rewrite Hc. fields.
  all: eexists; (split; [reflexivity |]); setters; repeat split.
  all: apply negb_false_iff, Z.eqb_eq in G0; exact G0.
Qed.

(** What a push against a full buffer leaves behind. *)
Lemma push_full i s :
  FIFO_DIM <= fifoCount s ->
  let s1 := set_overrun (u16 (overrun s + 1))
              (set_totalOverrun (u32 (totalOverrun s + 1)) s) in
  push i s = if u16 (overrun s + 1) >? 0xFFF
             then Halted "too many overruns"
                    (emit (EvError "too many overruns") s1)
             else Continue s1.
Proof.
  intros Hc. unfold push. apply Z.ltb_ge in Hc. rewrite Hc. reflexivity.
Qed.

Lemma push_full_frame i s :
  FIFO_DIM <= fifoCount s ->
  same_buffer s (outcome_state (push i s))
  /\ quiet s (outcome_state (push i s)).
Proof.
  intros Hc. rewrite push_full by exact Hc.
  destruct (_ >? 0xFFF); unfold same_buffer, quiet; setters;
    trace_emit; repeat split.
Qed.

Lemma ring_ok_same s s' :
  same_buffer s s' -> quiet s s' -> ring_ok s -> ring_ok s'.
Proof.
  intros HB HQ [].
  pose proof (buffered_same _ _ HB) as Hb.
  destruct HB as (Hc & Hh & Ht & Hd). destruct HQ as (Hl & Hw & _).
  constructor; rewrite ?Hc, ?Hh, ?Ht, ?Hd, ?Hl, ?Hw, ?Hb; assumption.
Qed.

Lemma push_ring_ok i s :
  ring_ok s ->
  ring_ok (outcome_state (push i s))
  /\ (forall s', push i s = Continue s' -> 1 <= fifoCount s').
Proof.
  intros R. pose proof FIFO_DIM_le as HD.
  destruct (Z_lt_le_dec (fifoCount s) FIFO_DIM) as [L | L].
  - destruct (push_room i s L) as (s' & E & Hd & Hh & Hc & Ht & Htr & _).
    rewrite E. simpl. destruct R.
    rewrite usize_small in Hh by lia.
    rewrite usize_small in Hh by lia.
    rewrite usize_small in Hc by lia.
    split; [| intros ? [= <-]; lia].
    constructor.
    + lia.
    + rewrite Hh. destruct (_ <? _) eqn:EE;
        [apply Z.ltb_lt in EE |]; lia.
    + rewrite Ht. assumption.
    + rewrite Hh, Ht, Hc. apply wrap_next; assumption.
    + rewrite Hd, length_insert. assumption.
    + rewrite Hd. apply Forall_insert; [assumption |].
      rewrite logRecord_length. apply slot_at_shape; [assumption | lia].
    + rewrite Htr. trace_emit. rewrite history0, <- app_assoc. f_equal.
      unfold buffered. rewrite Hd, Ht, Hc. symmetry.
      apply buffered_push_raw; try assumption; lia.
  - destruct (push_full_frame i s L) as [HB HQ]. split.
    + eapply ring_ok_same; eassumption.
    + intros s' E. rewrite E in HB. destruct HB as (Hc & _).
      simpl in Hc. lia.
Qed.

(** ** The write phase *)

(** The run chosen for a write lies inside the array, inside the buffered
    records and inside one sector. *)
Lemma write_nw_range s :
  ring_ok s -> 1 <= fifoCount s ->
  0 <= write_nw s <= fifoCount s
  /\ fifoTail s + write_nw s <= FIFO_DIM
  /\ write_nw s * sizeof_data_t <= 512.
Proof.
  intros [] Hc. pose proof FIFO_DIM_le as HD.
  pose proof MAX_WRITE_range as [HM1 HM2]. pose proof sizeof_pos as Hs.
  destruct (head_cases FIFO_DIM (fifoTail s) (fifoCount s) (fifoHead s))
    as [[L E] | [L E]]; try assumption.
  all: unfold write_nw.
  all: rewrite (usize_small (FIFO_DIM - fifoTail s)) by lia.
  all: destruct (fifoHead s >? fifoTail s) eqn:GT;
         [apply Z.gtb_lt in GT | rewrite Z.gtb_ltb in GT; apply Z.ltb_ge in GT].
  all: match goal with
       | |- context [if ?c then _ else _] =>
           destruct c eqn:CAP;
           [apply Z.gtb_lt in CAP
           | rewrite Z.gtb_ltb in CAP; apply Z.ltb_ge in CAP]
       end.
  all: try nia.
Qed.

Lemma write_span_take (fd : list data_t) t c n :
  0 <= t -> 0 <= n <= c -> t + n <= FIFO_DIM ->
  Z.of_nat (length fd) = FIFO_DIM ->
  take (Z.to_nat n) (drop (Z.to_nat t) fd)
  = take (Z.to_nat n)
      (map (fun k => slot_at fd ((t + Z.of_nat k) mod FIFO_DIM))
           (seq 0 (Z.to_nat c))).
Proof.
  intros Ht Hn Hle Hlen. apply list_eq. intros k.
  destruct (decide (k < Z.to_nat n)%nat) as [Hk | Hk].
  - rewrite !lookup_take_lt by exact Hk.
    rewrite lookup_drop, list_lookup_fmap, lookup_seq_lt by lia. simpl.
    rewrite Z.mod_small by lia.
    replace (Z.to_nat t + k)%nat with (Z.to_nat (t + Z.of_nat k)) by lia.
    apply slot_at_lookup. lia.
  - rewrite !lookup_take_ge by lia. reflexivity.
Qed.

Lemma buffered_drop (fd : list data_t) t t' c n :
  0 <= t -> 0 <= n <= c -> t' = (t + n) mod FIFO_DIM ->
  map (fun k => slot_at fd ((t' + Z.of_nat k) mod FIFO_DIM))
      (seq 0 (Z.to_nat (c - n)))
  = drop (Z.to_nat n)
      (map (fun k => slot_at fd ((t + Z.of_nat k) mod FIFO_DIM))
           (seq 0 (Z.to_nat c))).
Proof.
  intros Ht Hn ->. apply list_eq. intros k.
  rewrite lookup_drop, !list_lookup_fmap.
  destruct (decide (k < Z.to_nat (c - n))%nat) as [Hk | Hk].
  - rewrite !lookup_seq_lt by lia. simpl. do 2 f_equal.
    rewrite Zplus_mod_idemp_l. f_equal. lia.
  - rewrite !lookup_seq_ge by lia. reflexivity.
Qed.

(** What a write by an idle card leaves behind. *)
Lemma write_idle i s :
  isBusy i = false ->
  let nw := write_nw s in
  let nb := usize (nw * sizeof_data_t) in
  if negb (nb =? usize (write_ret i)) then
    exists s',
      write i s = Halted "write binFile failed" s'
      /\ same_buffer s s' /\ overrun s' = overrun s
      /\ trace s' = (trace s ++ [EvWrite (write_span s nb) false])
                    ++ [EvError "write binFile failed"]
      /\ logTime s' = logTime s /\ delta s' = delta s
  else
    exists s',
      write i s = (if negb (available i =? 0) then Break s' else Continue s')
      /\ fifoTail s' = (if usize (fifoTail s + nw) <? FIFO_DIM
                        then usize (fifoTail s + nw) else 0)
      /\ fifoCount s' = usize (fifoCount s - nw)
      /\ fifoHead s' = fifoHead s /\ fifoData s' = fifoData s
      /\ overrun s' = overrun s
      /\ trace s' = (trace s ++ [EvWrite (write_span s nb) true])
                    ++ [EvAvailable (available i)]
      /\ logTime s' = logTime s /\ delta s' = delta s.
Proof.
  intros Hb. unfold write. rewrite Hb. cbn [negb].
  destruct (negb (_ =? usize (write_ret i))).
  - eexists. split; [reflexivity |]. unfold same_buffer. setters.
    repeat split.
  - fields.
    all: eexists; (split; [reflexivity |]); unfold write_span; setters;
      repeat split.
Qed.

Lemma write_busy i s : isBusy i = true -> write i s = Continue s.
Proof. intros Hb. unfold write. rewrite Hb. reflexivity. Qed.

Lemma write_ring_ok i s :
  ring_ok s -> 1 <= fifoCount s -> ring_ok (outcome_state (write i s)).
Proof.
  intros R Hc. destruct (isBusy i) eqn:Hb;
    [rewrite write_busy by exact Hb; exact R |].
  pose proof (write_idle i s Hb) as W. cbv zeta in W.
  pose proof (write_nw_range s R Hc) as (Hn & Hle & Hsz).
  pose proof FIFO_DIM_le as HD. pose proof sizeof_pos as Hs.
  destruct R.
  assert (0 <= write_nw s * sizeof_data_t) by nia.
  rewrite (usize_small (write_nw s * sizeof_data_t)) in W by lia.
  destruct (negb (_ =? usize (write_ret i))).
  - destruct W as (s' & -> & HB & _ & Htr & _). simpl.
    pose proof (buffered_same _ _ HB) as Hbuf.
    destruct HB as (Hc' & Hh' & Ht' & Hd').
    constructor; rewrite ?Hc', ?Hh', ?Ht', ?Hd', ?Hbuf, ?Htr; trace_emit;
      assumption.
  - destruct W as (s' & E & Ht' & Hc' & Hh' & Hd' & _ & Htr & _).
    assert (outcome_state (write i s) = s') as ->
      by (rewrite E; destruct (negb _); reflexivity).
    rewrite (usize_small (fifoTail s + write_nw s)) in Ht' by lia.
    rewrite usize_small in Hc' by lia.
    rewrite wrap_advance in Ht' by lia.
    constructor.
    + lia.
    + rewrite Hh'. assumption.
    + rewrite Ht'. apply wrap_range. lia.
    + rewrite Hh', Ht', Hc', Zplus_mod_idemp_l, head_tail0. f_equal. lia.
    + rewrite Hd'. assumption.
    + rewrite Hd'. assumption.
    + rewrite Htr. trace_emit. rewrite history0, <- app_assoc. f_equal.
      unfold buffered at 2. rewrite Hd', Hc'.
      rewrite (buffered_drop (fifoData s) (fifoTail s) (fifoTail s')
                 (fifoCount s) (write_nw s)) by (try exact Ht'; lia).
      unfold write_span. rewrite Z.div_mul by lia.
      rewrite (write_span_take (fifoData s) (fifoTail s) (fifoCount s))
        by (try assumption; lia).
      symmetry. apply take_drop.
Qed.

(** ** One turn of the loop *)

Lemma and_then_state (P : state -> Prop) o k :
  P (outcome_state o) ->
  (forall s, o = Continue s -> P (outcome_state (k s))) ->
  P (outcome_state (and_then o k)).
Proof. intros H1 H2. destruct o; simpl; auto. Qed.

Lemma and_then_continue o k s' :
  and_then o k = Continue s' ->
  exists s, o = Continue s /\ k s = Continue s'.
Proof. destruct o; simpl; try discriminate. eauto. Qed.

Lemma jitter_frame s :
  exists s', jitter s = Continue s'
             /\ same_buffer s s' /\ quiet s s' /\ overrun s' = overrun s.
Proof.
  unfold jitter. eexists. split; [reflexivity |].
  unfold same_buffer, quiet. fields; repeat split.
Qed.

Lemma loop_inv_same s s' :
  same_buffer s s' -> quiet s s' -> overrun s' = overrun s ->
  loop_inv s -> loop_inv s'.
Proof.
  intros HB HQ Ho [R Hov]. split; [eapply ring_ok_same; eassumption |].
  rewrite Ho. exact Hov.
Qed.

Lemma deadline_inv i s : loop_inv s -> loop_inv (outcome_state (deadline i s)).
Proof.
  intros H. destruct (deadline_frame i s) as (HB & HQ & Ho & _).
  eapply loop_inv_same; eassumption.
Qed.

Lemma push_inv i s :
  loop_inv s ->
  ring_ok (outcome_state (push i s))
  /\ (forall s', push i s = Continue s' -> loop_inv s' /\ 1 <= fifoCount s').
Proof.
  intros [R Hov]. destruct (push_ring_ok i s R) as [R' Hc'].
  split; [exact R' |]. intros s' E. split; [| exact (Hc' s' E)].
  split; [rewrite E in R'; exact R' |].
  destruct (Z_lt_le_dec (fifoCount s) FIFO_DIM) as [L | L].
  - destruct (push_room i s L) as (s2 & E2 & _ & _ & _ & _ & _ & Ho & _).
    rewrite E in E2. injection E2 as <-. rewrite Ho. lia.
  - rewrite push_full in E by exact L.
    destruct (_ >? 0xFFF) eqn:G; [discriminate |].
    injection E as <-. setters.
    rewrite Z.gtb_ltb in G. apply Z.ltb_ge in G.
    pose proof (Z.mod_pos_bound (overrun s + 1) (2 ^ 16) ltac:(lia)).
    unfold u16 in *. lia.
Qed.

Lemma write_inv i s :
  loop_inv s -> 1 <= fifoCount s -> loop_inv (outcome_state (write i s)).
Proof.
  intros [R Hov] Hc. split; [apply write_ring_ok; assumption |].
  destruct (isBusy i) eqn:Hb; [rewrite write_busy by exact Hb; exact Hov |].
  pose proof (write_idle i s Hb) as W. cbv zeta in W.
  destruct (negb (_ =? usize (write_ret i))).
  - destruct W as (s' & -> & _ & Ho & _). simpl. rewrite Ho. exact Hov.
  - destruct W as (s' & E & _ & _ & _ & _ & Ho & _).
    rewrite E. destruct (negb _); simpl; rewrite Ho; exact Hov.
Qed.

(** The state after the deadline and push phases of a turn. *)
Lemma pushed_ring_ok i s :
  loop_inv s -> ring_ok (outcome_state (and_then (deadline i s) (push i))).
Proof.
  intros H. pose proof (deadline_inv i s H) as H1.
  apply and_then_state; [exact (proj1 H1) |].
  intros s1 E. rewrite E in H1. apply push_inv. exact H1.
Qed.

Lemma iteration_ring_ok i s :
  loop_inv s -> ring_ok (outcome_state (iteration i s)).
Proof.
  intros H. unfold iteration.
  apply and_then_state.
  - apply and_then_state; [apply pushed_ring_ok; exact H |].
    intros s2 E. destruct (jitter_frame s2) as (s3 & -> & HB & HQ & _).
    simpl. eapply ring_ok_same; try eassumption.
    pose proof (pushed_ring_ok i s H) as R. rewrite E in R. exact R.
  - intros s3 E.
    apply and_then_continue in E as (s2 & E & Ej).
    apply and_then_continue in E as (s1 & Ed & Ep).
    pose proof (deadline_inv i s H) as H1. rewrite Ed in H1.
    destruct (push_inv i s1 H1) as [_ Hp].
    destruct (Hp s2 Ep) as [H2 Hc].
    destruct (jitter_frame s2) as (s3' & Ej' & HB & HQ & Ho).
    rewrite Ej in Ej'. injection Ej' as <-.
    apply write_inv.
    + eapply loop_inv_same; eassumption.
    + destruct HB as (-> & _). exact Hc.
Qed.

Lemma iteration_inv i s s' :
  loop_inv s -> iteration i s = Continue s' -> loop_inv s'.
Proof.
  intros H E. unfold iteration in E.
  apply and_then_continue in E as (s3 & E & Ew).
  apply and_then_continue in E as (s2 & E & Ej).
  apply and_then_continue in E as (s1 & Ed & Ep).
  pose proof (deadline_inv i s H) as H1. rewrite Ed in H1.
  destruct (push_inv i s1 H1) as [_ Hp].
  destruct (Hp s2 Ep) as [H2 Hc].
  destruct (jitter_frame s2) as (s3' & Ej' & HB & HQ & Ho).
  rewrite Ej in Ej'. injection Ej' as <-.
  assert (loop_inv s3) as H3 by (eapply loop_inv_same; eassumption).
  pose proof (write_inv i s3 H3) as H4. rewrite Ew in H4. apply H4.
  destruct HB as (-> & _). exact Hc.
Qed.

Lemma buffered_empty_count s : fifoCount s = 0 -> buffered s = [].
Proof. intros E. unfold buffered. rewrite E. reflexivity. Qed.

Lemma init_inv t0 fd :
  Z.of_nat (length fd) = FIFO_DIM ->
  Forall (fun d => length (adc d) = ADC_COUNT) fd ->
  loop_inv (logData_init t0 fd).
Proof.
  intros Hlen Hshape. split; [| simpl; lia].
  constructor; simpl; try lia; try assumption; reflexivity.
Qed.

Lemma reachable_inv s : reachable s -> loop_inv s.
Proof.
  induction 1 as [t0 fd Hlen Hshape | i s s' _ IH E].
  - apply init_inv; assumption.
  - eapply iteration_inv; eassumption.
Qed.

Lemma buffered_length s :
  0 <= fifoCount s -> Z.of_nat (length (buffered s)) = fifoCount s.
Proof. intros H. unfold buffered. rewrite length_map, length_seq. lia. Qed.

(** With the bookkeeping right, the count tells empty and full. *)
Lemma ring_ok_empty_full s :
  ring_ok s ->
  (fifoCount s = 0 <-> is_empty s) /\ (fifoCount s = FIFO_DIM <-> is_full s).
Proof.
  intros []. pose proof (buffered_length s ltac:(lia)) as Hl.
  unfold is_empty, is_full, unwritten. rewrite history0, length_app. split.
  - split.
    + intros E. rewrite buffered_empty_count by exact E. apply app_nil_r.
    + intros E. assert (buffered s = []) as Eb.
      { apply (app_inv_head (written (trace s))). rewrite app_nil_r. exact E. }
      rewrite Eb in Hl. simpl in Hl. lia.
  - lia.
Qed.

(** ** What the phases leave alone *)

Lemma push_frame i s :
  let s' := outcome_state (push i s) in
  logTime s' = logTime s /\ delta s' = delta s
  /\ fifoTail s' = fifoTail s
  /\ written (trace s') = written (trace s)
  /\ writes (trace s') = writes (trace s)
  /\ polls (trace s') = polls (trace s).
Proof.
  cbv zeta. destruct (Z_lt_le_dec (fifoCount s) FIFO_DIM) as [L | L].
  - destruct (push_room i s L)
      as (s' & -> & _ & _ & _ & Ht & Htr & _ & _ & Hl & Hd).
    cbn [outcome_state]. rewrite Htr. trace_emit. repeat split; assumption.
  - destruct (push_full_frame i s L) as [(_ & _ & Ht & _) (_ & Hw & Hws & Hp)].
    rewrite push_full in * by exact L. cbv zeta in *.
    destruct (_ >? 0xFFF); setters; repeat split; assumption.
Qed.

Lemma write_frame i s :
  let s' := outcome_state (write i s) in
  logTime s' = logTime s /\ delta s' = delta s
  /\ logged (trace s') = logged (trace s).
Proof.
  cbv zeta. destruct (isBusy i) eqn:Hb;
    [rewrite write_busy by exact Hb; repeat split |].
  pose proof (write_idle i s Hb) as W. cbv zeta in W.
  destruct (negb (_ =? usize (write_ret i))).
  - destruct W as (s' & -> & _ & _ & Htr & Hl & Hd). cbn [outcome_state].
    rewrite Htr. trace_emit. repeat split; assumption.
  - destruct W as (s' & E & _ & _ & _ & _ & _ & Htr & Hl & Hd).
    assert (outcome_state (write i s) = s') as ->
      by (rewrite E; destruct (negb _); reflexivity).
    rewrite Htr. trace_emit. repeat split; assumption.
Qed.

Lemma jitter_logTime s : logTime (outcome_state (jitter s)) = logTime s.
Proof. unfold jitter. fields; reflexivity. Qed.

Lemma iteration_logTime i s :
  logTime (outcome_state (iteration i s))
  = u32 (logTime s + LOG_INTERVAL_USEC).
Proof.
  unfold iteration.
  destruct (deadline_frame i s) as (_ & _ & _ & _ & Hd).
  destruct (deadline i s) as [s1 | | |];
    cbn [and_then outcome_state] in *; try exact Hd.
  destruct (push_frame i s1) as (Hp & _).
  destruct (push i s1) as [s2 | | |];
    cbn [and_then outcome_state] in *; try congruence.
  destruct (jitter_frame s2) as (s3 & Ej & _).
  pose proof (jitter_logTime s2) as Hj. rewrite Ej in *.
  cbn [and_then outcome_state] in *.
  destruct (write_frame i s3) as (Hw & _). congruence.
Qed.

Lemma u32_add_l a b : u32 (u32 a + b) = u32 (a + b).
Proof. unfold u32. apply Zplus_mod_idemp_l. Qed.

Lemma reachable_logLoop ins : forall s s',
  reachable s -> logLoop ins s = Continue s' -> reachable s'.
Proof.
  induction ins as [|i ins IH]; intros s s' R E; simpl in E.
  - injection E as <-. exact R.
  - destruct (iteration i s) as [s1 | | |] eqn:Ei; try discriminate.
    eapply IH; [| exact E]. eapply reach_turn; eassumption.
Qed.

(** ** The ring buffer *)

(** C2: in every state in which the loop starts a turn, in the state
    between the push phase and the write phase of that turn, and in the
    state the turn ends in, fifoCount lies in [0, FIFO_DIM], fifoHead and
    fifoTail lie in [0, FIFO_DIM), the head is the tail advanced by the
    count, the logged records are the written ones followed by the buffered
    ones, fifoCount is 0 exactly when nothing logged is unwritten, and
    fifoCount is FIFO_DIM exactly when the unwritten records fill every
    slot. *)
Theorem ring_buffer_invariant s i x :
  reachable s ->
  x = s \/ x = outcome_state (and_then (deadline i s) (push i))
  \/ x = outcome_state (iteration i s) ->
  0 <= fifoCount x <= FIFO_DIM
  /\ 0 <= fifoHead x < FIFO_DIM
  /\ 0 <= fifoTail x < FIFO_DIM
  /\ fifoHead x = (fifoTail x + fifoCount x) mod FIFO_DIM
  /\ logged (trace x) = written (trace x) ++ buffered x
  /\ (fifoCount x = 0 <-> is_empty x)
  /\ (fifoCount x = FIFO_DIM <-> is_full x).
Proof.
  intros R Hx. apply reachable_inv in R.
  assert (ring_ok x) as Rx.
  { destruct Hx as [-> | [-> | ->]].
    - exact (proj1 R).
    - apply pushed_ring_ok. exact R.
    - apply iteration_ring_ok. exact R. }
  destruct (ring_ok_empty_full x Rx) as [He Hf]. destruct Rx.
  repeat split; try assumption; try apply He; try apply Hf; lia.
Qed.

(** What an accepted write takes from the buffer. *)
Lemma write_idle_buffered i s :
  ring_ok s -> 1 <= fifoCount s -> isBusy i = false ->
  write_span s (usize (write_nw s * sizeof_data_t))
  = take (Z.to_nat (write_nw s)) (buffered s)
  /\ forall s', write i s = Continue s' \/ write i s = Break s' ->
       fifoCount s' = fifoCount s - write_nw s
       /\ buffered s' = drop (Z.to_nat (write_nw s)) (buffered s)
       /\ written (trace s')
          = written (trace s) ++ take (Z.to_nat (write_nw s)) (buffered s).
Proof.
  intros R Hc Hb.
  pose proof (write_idle i s Hb) as W. cbv zeta in W.
  pose proof (write_nw_range s R Hc) as (Hn & Hle & Hsz).
  pose proof FIFO_DIM_le as HD. pose proof sizeof_pos as Hs.
  destruct R.
  assert (0 <= write_nw s * sizeof_data_t) by nia.
  rewrite (usize_small (write_nw s * sizeof_data_t)) in * by lia.
  assert (write_span s (write_nw s * sizeof_data_t)
          = take (Z.to_nat (write_nw s)) (buffered s)) as Hspan.
  { unfold write_span, buffered. rewrite Z.div_mul by lia.
    apply write_span_take; try assumption; lia. }
  split; [exact Hspan |]. intros s' E.
  destruct (negb (_ =? usize (write_ret i))).
  - destruct W as (s2 & E2 & _). rewrite E2 in E.
    destruct E; discriminate.
  - destruct W as (s2 & E2 & Ht' & Hc' & Hh' & Hd' & _ & Htr & _).
    assert (s' = s2) as ->
      by (rewrite E2 in E; destruct (negb _); destruct E; congruence).
    rewrite (usize_small (fifoTail s + write_nw s)) in Ht' by lia.
    rewrite usize_small in Hc' by lia.
    rewrite wrap_advance in Ht' by lia.
    repeat split.
    + exact Hc'.
    + unfold buffered at 1. rewrite Hd', Hc'.
      apply buffered_drop; try exact Ht'; lia.
    + rewrite Htr. trace_emit. rewrite Hspan. reflexivity.
Qed.

(** C3: in a turn of the loop that reaches the write phase with the card
    idle, the number nw of records chosen for the write satisfies
    fifoTail + nw <= FIFO_DIM and nw * sizeof(data_t) <= 512; the span
    handed to binFile.write is the first nw buffered records, and when the
    turn completes the other buffered records are still buffered, in
    order. *)
Theorem write_run_bounded s i s3 :
  reachable s -> isBusy i = false ->
  and_then (and_then (deadline i s) (push i)) jitter = Continue s3 ->
  let nw := write_nw s3 in
  0 <= nw <= fifoCount s3
  /\ fifoTail s3 + nw <= FIFO_DIM
  /\ nw * sizeof_data_t <= 512
  /\ write_span s3 (usize (nw * sizeof_data_t))
     = take (Z.to_nat nw) (buffered s3)
  /\ forall s4, iteration i s = Continue s4 \/ iteration i s = Break s4 ->
       fifoCount s4 = fifoCount s3 - nw
       /\ buffered s4 = drop (Z.to_nat nw) (buffered s3)
       /\ written (trace s4)
          = written (trace s3) ++ take (Z.to_nat nw) (buffered s3).
Proof.
  intros R Hb E. apply reachable_inv in R.
  assert (iteration i s = write i s3) as Ei
    by (unfold iteration; rewrite E; reflexivity).
  apply and_then_continue in E as (s2 & E & Ej).
  apply and_then_continue in E as (s1 & Ed & Ep).
  pose proof (deadline_inv i s R) as H1. rewrite Ed in H1.
  destruct (push_inv i s1 H1) as [_ Hp].
  destruct (Hp s2 Ep) as [H2 Hc].
  destruct (jitter_frame s2) as (s3' & Ej' & HB & HQ & Ho).
  rewrite Ej in Ej'. injection Ej' as <-.
  assert (ring_ok s3) as R3 by (eapply ring_ok_same; try eassumption; apply H2).
  assert (1 <= fifoCount s3) as Hc3 by (destruct HB as (-> & _); exact Hc).
  destruct (write_nw_range s3 R3 Hc3) as (Hn & Hle & Hsz).
  destruct (write_idle_buffered i s3 R3 Hc3 Hb) as [Hspan Hrest].
  cbv zeta. rewrite Ei. repeat split; try assumption; try lia.
  all: apply Hrest; assumption.
Qed.

(** ** The due time *)

Lemma u32_idem x : u32 (u32 x) = u32 x.
Proof. unfold u32. apply Z.mod_mod. lia. Qed.

Lemma logLoop_logTime ins : forall s,
  u32 (logTime s) = logTime s ->
  logTime (outcome_state (logLoop ins s))
  = u32 (logTime s + Z.of_nat (turns ins s) * LOG_INTERVAL_USEC).
Proof.
  induction ins as [|i ins IH]; intros s Hs.
  - simpl. rewrite Z.add_0_r. symmetry. exact Hs.
  - pose proof (iteration_logTime i s) as Hi. cbn [logLoop turns].
    destruct (iteration i s) as [s1 | s1 | msg s1 | s1];
      cbn [outcome_state] in *.
    + rewrite IH by (rewrite Hi; apply u32_idem).
      rewrite Hi, u32_add_l. f_equal; lia.
    + rewrite Hi. f_equal; lia.
    + rewrite Hi. f_equal; lia.
    + rewrite Hi. f_equal; lia.
Qed.

Lemma logLoop_turns ins : forall s s',
  logLoop ins s = Continue s' -> turns ins s = length ins.
Proof.
  induction ins as [|i ins IH]; intros s s' E; simpl in *.
  - reflexivity.
  - destruct (iteration i s) as [s1 | | |]; try discriminate.
    f_equal. eapply IH. exact E.
Qed.

(** C4: whatever the clock, the converter, the card and the operator
    answer, once the loop has started K turns its due time logTime is the
    first micros() reading plus K times LOG_INTERVAL_USEC, modulo 2^32; a
    loop still running after the answers of K turns has started exactly K
    turns; and each turn replaces logTime by logTime + LOG_INTERVAL_USEC,
    modulo 2^32, in whichever way the turn ends. *)
Theorem due_time_after_turns t0 fd ins :
  logTime (outcome_state (logData t0 fd ins))
  = u32 (t0 + Z.of_nat (turns ins (logData_init t0 fd)) * LOG_INTERVAL_USEC)
  /\ (forall s', logData t0 fd ins = Continue s' ->
        turns ins (logData_init t0 fd) = length ins
        /\ logTime s'
           = u32 (t0 + Z.of_nat (length ins) * LOG_INTERVAL_USEC))
  /\ forall i s, logTime (outcome_state (iteration i s))
                 = u32 (logTime s + LOG_INTERVAL_USEC).
Proof.
  assert (logTime (outcome_state (logData t0 fd ins))
          = u32 (t0 + Z.of_nat (turns ins (logData_init t0 fd))
                      * LOG_INTERVAL_USEC)) as H.
  { unfold logData. rewrite logLoop_logTime by apply u32_idem.
    cbn [logData_init logTime]. apply u32_add_l. }
  split; [exact H | split; [| apply iteration_logTime]].
  intros s' E. pose proof (logLoop_turns _ _ _ E) as Ht.
  split; [exact Ht |]. rewrite E, Ht in H. exact H.
Qed.

(** ** The push into a full buffer *)

(** C5: when fifoCount is FIFO_DIM the push phase logs no record and
    leaves fifoHead, fifoTail, fifoCount and every slot of fifoData as they
    were; the state differs only in overrun and totalOverrun, each one
    more, and in what was sent out, which is nothing, the fault indicator,
    or the diagnostic of a saturated streak. *)
Theorem full_push_refused i s :
  fifoCount s = FIFO_DIM ->
  let s' := outcome_state (push i s) in
  same_buffer s s' /\ buffered s' = buffered s
  /\ logged (trace s') = logged (trace s)
  /\ exists tr,
       s' = mk_state (delta s) (maxDelta s) (maxLogMicros s)
              (maxWriteMicros s) (maxFifoCount s) (fifoCount s) (fifoHead s)
              (fifoTail s) (u16 (overrun s + 1)) (maxOverrun s)
              (u32 (totalOverrun s + 1)) (fifoData s) (logTime s) tr
       /\ (tr = trace s \/ tr = trace s ++ [EvLed]
           \/ tr = trace s ++ [EvError "too many overruns"]).
Proof.
  intros Hc. cbv zeta.
  destruct (push_full_frame i s ltac:(lia)) as [HB HQ].
  split; [exact HB |]. split; [apply buffered_same; exact HB |].
  split; [apply HQ |].
  rewrite push_full by lia. cbv zeta.
  destruct (_ >? 0xFFF); setters; eexists; (split; [reflexivity |]); auto.
Qed.

(** ** How a turn can end *)

Lemma deadline_cases i s :
  let due := u32 (logTime s + LOG_INTERVAL_USEC) in
  let d0 := i32 (since (micros_due i) due) in
  let s0 := set_delta d0 (set_logTime due s) in
  deadline i s
  = if d0 >? 0 then error "Rate too fast" (emit (EvPrintDelta d0) s0)
    else match wait_due due d0 (micros_wait i) with
         | None => Spinning s0
         | Some d => Continue (set_delta d s0)
         end.
Proof. reflexivity. Qed.

Lemma deadline_not_break i s s' : deadline i s <> Break s'.
Proof.
  rewrite deadline_cases. cbv zeta.
  destruct (_ >? 0); [discriminate |]. destruct (wait_due _ _ _); discriminate.
Qed.

(** A push continues, or halts on a saturated streak against a full
    buffer. *)
Lemma push_outcome i s :
  (exists s', push i s = Continue s')
  \/ (exists s', push i s = Halted "too many overruns" s'
                 /\ FIFO_DIM <= fifoCount s /\ 0xFFF < u16 (overrun s + 1)
                 /\ overrun s' = u16 (overrun s + 1) /\ quiet s s').
Proof.
  destruct (Z_lt_le_dec (fifoCount s) FIFO_DIM) as [L | L].
  - destruct (push_room i s L) as (s' & E & _). left. eauto.
  - destruct (push_full_frame i s L) as [_ HQ]. revert HQ.
    rewrite push_full by exact L. cbv zeta.
    destruct (_ >? 0xFFF) eqn:G; [| left; eauto].
    intros HQ. right. eexists. split; [reflexivity |].
    apply Z.gtb_lt in G. repeat split; try assumption; apply HQ.
Qed.

(** The phases before the write either all continue, or stop the loop
    without having logged, written or polled anything. *)
Lemma before_write_cases i s :
  let o := and_then (and_then (deadline i s) (push i)) jitter in
  (exists s3, o = Continue s3
              /\ polls (trace s3) = polls (trace s)
              /\ writes (trace s3) = writes (trace s))
  \/ (exists s', (o = Spinning s' \/ exists msg, o = Halted msg s')
                 /\ quiet s s').
Proof.
  cbv zeta. destruct (deadline_frame i s) as (_ & HQ1 & _).
  pose proof (deadline_not_break i s) as NB.
  destruct (deadline i s) as [s1 | s1 | msg s1 | s1];
    cbn [and_then outcome_state] in *.
  - destruct (push_outcome i s1) as [(s2 & Ep) | (s2 & Ep & _ & _ & _ & HQ2)];
      rewrite Ep; cbn [and_then].
    + destruct (push_frame i s1) as (_ & _ & _ & _ & Hw & Hp).
      rewrite Ep in Hw, Hp. cbn [outcome_state] in *.
      destruct (jitter_frame s2) as (s3 & -> & _ & HQ3 & _).
      left. exists s3. split; [reflexivity |].
      destruct HQ1 as (_ & _ & Hw1 & Hp1). destruct HQ3 as (_ & _ & Hw3 & Hp3).
      split; congruence.
    + right. exists s2. split; [right; eauto |].
      eapply quiet_trans; eassumption.
  - exfalso. exact (NB s1 eq_refl).
  - right. exists s1. split; [right; eauto | exact HQ1].
  - right. exists s1. split; [left; reflexivity | exact HQ1].
Qed.

(** ** The stop signal *)

(** C7 (amended): in a turn that reaches the write with the card idle
    and whose write is accepted, the stop signal is polled exactly once,
    as the last action of the turn, after the sampling or overrun
    accounting and after the write; when the signal is set the loop exits
    at the end of that turn, whatever would have followed, and when it is
    not set the loop goes on to its next turn. In a turn with the card
    busy, and in a turn that halts or keeps waiting, the signal is not
    polled, and the loop exits through a turn only when the card was idle
    and the signal set. *)
Theorem stop_polled_after_idle_write i s :
  let o := iteration i s in
  (forall s3,
     and_then (and_then (deadline i s) (push i)) jitter = Continue s3 ->
     isBusy i = false ->
     usize (write_nw s3 * sizeof_data_t) = usize (write_ret i) ->
     exists s',
       o = (if available i =? 0 then Continue s' else Break s')
       /\ (available i <> 0 ->
             forall rest, logLoop (i :: rest) s = Break s')
       /\ (available i = 0 ->
             forall rest, logLoop (i :: rest) s = logLoop rest s')
       /\ trace s'
          = (trace s3
             ++ [EvWrite (write_span s3 (usize (write_nw s3 * sizeof_data_t)))
                   true])
            ++ [EvAvailable (available i)]
       /\ polls (trace s') = S (polls (trace s))
       /\ writes (trace s') = S (writes (trace s)))
  /\ (isBusy i = true ->
        polls (trace (outcome_state o)) = polls (trace s)
        /\ forall s', o <> Break s')
  /\ (forall s',
        o = Spinning s' \/ (exists msg, o = Halted msg s') ->
        polls (trace s') = polls (trace s))
  /\ (forall s', o = Break s' -> isBusy i = false /\ available i <> 0).
Proof.
  cbv zeta. unfold iteration.
  destruct (before_write_cases i s) as [(s3 & E & Hp & Hw) | (s1 & E & HQ)];
    cbv zeta in *.
  - rewrite E. cbn [and_then]. split; [| split; [| split]].
    + intros ? [= <-] Hb Hr. pose proof (write_idle i s3 Hb) as W.
      cbv zeta in W. rewrite Hr, Z.eqb_refl in W. cbn [negb] in W.
      destruct W as (s' & Ew & _ & _ & _ & _ & _ & Htr & _).
      exists s'. split; [| split; [| split; [| split; [| split]]]].
      * rewrite Ew. destruct (available i =? 0); reflexivity.
      * intros A rest. apply Z.eqb_neq in A. cbn [logLoop].
        unfold iteration. rewrite E. cbn [and_then]. rewrite Ew, A.
        reflexivity.
      * intros A rest. apply Z.eqb_eq in A. cbn [logLoop].
        unfold iteration. rewrite E. cbn [and_then]. rewrite Ew, A.
        reflexivity.
      * rewrite Hr. exact Htr.
      * rewrite Htr. trace_emit. lia.
      * rewrite Htr. trace_emit. lia.
    + intros Hb. rewrite write_busy by exact Hb. cbn [outcome_state].
      split; [exact Hp | discriminate].
    + intros s' H. destruct (isBusy i) eqn:Hb.
      * rewrite write_busy in H by exact Hb.
        destruct H as [D | (msg & D)]; discriminate.
      * pose proof (write_idle i s3 Hb) as W. cbv zeta in W.
        destruct (negb (_ =? usize (write_ret i))).
        -- destruct W as (s2 & Ew & _ & _ & Htr & _). rewrite Ew in H.
           destruct H as [D | (msg & [= _ <-])]; [discriminate |].
           rewrite Htr. trace_emit. exact Hp.
        -- destruct W as (s2 & Ew & _). rewrite Ew in H.
           destruct (negb (available i =? 0));
             destruct H as [D | (msg & D)]; discriminate.
    + intros s' H. destruct (isBusy i) eqn:Hb.
      * rewrite write_busy in H by exact Hb. discriminate.
      * split; [reflexivity |]. pose proof (write_idle i s3 Hb) as W.
        cbv zeta in W. destruct (negb (_ =? usize (write_ret i))).
        -- destruct W as (s2 & Ew & _). rewrite Ew in H. discriminate.
        -- destruct W as (s2 & Ew & _). rewrite Ew in H.
           destruct (available i =? 0) eqn:A; cbn [negb] in H;
             [discriminate |]. apply Z.eqb_neq in A. exact A.
  - destruct HQ as (_ & _ & _ & Hp).
    split; [| split; [| split]].
    + intros s3 E3. exfalso.
      destruct E as [E | (msg & E)]; rewrite E in E3; discriminate.
    + intros _. destruct E as [-> | (msg & ->)]; cbn [and_then outcome_state];
        (split; [exact Hp | discriminate]).
    + intros s' H.
      destruct E as [E | (msg & E)]; rewrite E in H; cbn [and_then] in H.
      * destruct H as [[= <-] | (msg & D)]; [exact Hp | discriminate].
      * destruct H as [D | (msg' & [= _ <-])]; [discriminate | exact Hp].
    + intros s' H. exfalso.
      destruct E as [E | (msg & E)]; rewrite E in H; discriminate.
Qed.

(** ** The overrun ceiling *)

Lemma write_halt_message i s msg s' :
  write i s = Halted msg s' -> msg = "write binFile failed".
Proof.
  destruct (isBusy i) eqn:Hb;
    [rewrite write_busy by exact Hb; discriminate |].
  pose proof (write_idle i s Hb) as W. cbv zeta in W.
  destruct (negb (_ =? usize (write_ret i))).
  - destruct W as (s2 & -> & _). intros [= <- _]. reflexivity.
  - destruct W as (s2 & -> & _). destruct (negb _); discriminate.
Qed.

(** C8: in a turn that finds the buffer full, once the streak with this
    turn's overrun counted exceeds 0xFFF the loop halts with the
    diagnostic "too many overruns", whatever would have followed, having
    logged no record and issued no write in that turn; while the streak
    stays at or below 0xFFF the push phase continues with the counted
    streak and the turn does not end in that diagnostic. *)
Theorem overrun_ceiling i s s1 :
  deadline i s = Continue s1 -> fifoCount s = FIFO_DIM ->
  let streak := u16 (overrun s + 1) in
  (0xFFF < streak ->
     exists s',
       (forall rest, logLoop (i :: rest) s = Halted "too many overruns" s')
       /\ overrun s' = streak
       /\ logged (trace s') = logged (trace s)
       /\ writes (trace s') = writes (trace s))
  /\ (streak <= 0xFFF ->
        exists s2,
          push i s1 = Continue s2 /\ overrun s2 = streak
          /\ forall s', iteration i s <> Halted "too many overruns" s').
Proof.
  intros Ed Hc. cbv zeta.
  destruct (deadline_frame i s) as (HB & HQ & Ho & _).
  rewrite Ed in HB, HQ, Ho. cbn [outcome_state] in *.
  assert (FIFO_DIM <= fifoCount s1) as L by (destruct HB as (-> & _); lia).
  pose proof (push_full i s1 L) as Ep. cbv zeta in Ep. rewrite Ho in Ep.
  destruct (push_full_frame i s1 L) as [_ HQ2]. rewrite Ep in HQ2.
  split; intros G.
  - apply Z.gtb_lt in G. rewrite G in Ep, HQ2. cbn [outcome_state] in HQ2.
    eexists. split; [| split; [| split]].
    + intros rest. cbn [logLoop]. unfold iteration.
      rewrite Ed. cbn [and_then]. rewrite Ep. reflexivity.
    + setters. reflexivity.
    + etransitivity; [apply HQ2 | apply HQ].
    + etransitivity; [apply HQ2 | apply HQ].
  - assert ((u16 (overrun s + 1) >? 0xFFF) = false) as G'
      by (rewrite Z.gtb_ltb; apply Z.ltb_ge; exact G).
    rewrite G' in Ep. eexists. split; [exact Ep |].
    split; [setters; reflexivity |].
    intros s' E. unfold iteration in E. rewrite Ed in E.
    cbn [and_then] in E. rewrite Ep in E. cbn [and_then] in E.
    destruct (jitter_frame (set_overrun (u16 (overrun s + 1))
                (set_totalOverrun (u32 (totalOverrun s1 + 1)) s1)))
      as (s3 & Ej & _).
    rewrite Ej in E. cbn [and_then] in E.
    apply write_halt_message in E. discriminate.
Qed.

(** ** A missed deadline *)

Lemma wait_due_reached due ticks d :
  Exists (fun x => 0 <= x) (deltas due d ticks) ->
  exists d', wait_due due d ticks = Some d'.
Proof.
  intros HE. destruct (wait_due due d ticks) as [d' |] eqn:E; [eauto |].
  apply wait_due_none in E. apply Exists_exists in HE as (x & Hin & Hx).
  rewrite Forall_forall in E. specialize (E x Hin). lia.
Qed.

(** C9: with delta the signed 32-bit difference between the first clock
    reading of a turn and the due time just advanced: if delta > 0 the
    loop halts with the diagnostic "Rate too fast", whatever would have
    followed, with the buffer untouched and nothing logged or written;
    otherwise the loop waits, and it leaves the wait at the first reading
    whose difference to the due time is not negative, all earlier ones
    being negative, and it keeps waiting as long as every reading is
    before the due time. *)
Theorem deadline_missed_or_awaited i s :
  let due := u32 (logTime s + LOG_INTERVAL_USEC) in
  let d0 := i32 (since (micros_due i) due) in
  (0 < d0 ->
     exists s',
       (forall rest, logLoop (i :: rest) s = Halted "Rate too fast" s')
       /\ same_buffer s s' /\ quiet s s')
  /\ (d0 <= 0 ->
        Exists (fun x => 0 <= x) (deltas due d0 (micros_wait i)) ->
        exists s1 d pre post,
          deadline i s = Continue s1 /\ delta s1 = d /\ 0 <= d
          /\ logTime s1 = due
          /\ deltas due d0 (micros_wait i) = pre ++ d :: post
          /\ Forall (fun x => x < 0) pre)
  /\ (d0 <= 0 ->
        Forall (fun x => x < 0) (deltas due d0 (micros_wait i)) ->
        exists s1,
          forall rest, logLoop (i :: rest) s = Spinning s1).
Proof.
  cbv zeta. pose proof (deadline_cases i s) as Ed. cbv zeta in Ed.
  destruct (deadline_frame i s) as (HB & HQ & _).
  split; [| split].
  - intros G. apply Z.gtb_lt in G. rewrite G in Ed.
    rewrite Ed in HB, HQ. cbn [outcome_state error] in *.
    eexists. split; [| split; [exact HB | exact HQ]].
    intros rest. cbn [logLoop]. unfold iteration. rewrite Ed. reflexivity.
  - intros G HE.
    assert ((i32 (since (micros_due i) (u32 (logTime s + LOG_INTERVAL_USEC)))
             >? 0) = false) as G'
      by (rewrite Z.gtb_ltb; apply Z.ltb_ge; exact G).
    rewrite G' in Ed.
    destruct (wait_due_reached _ _ _ HE) as (d & Ew). rewrite Ew in Ed.
    destruct (wait_due_some _ _ _ _ Ew) as (Hd & pre & post & Heq & Hpre).
    eexists _, d, pre, post. split; [exact Ed |]. setters.
    repeat split; assumption.
  - intros G HF.
    assert ((i32 (since (micros_due i) (u32 (logTime s + LOG_INTERVAL_USEC)))
             >? 0) = false) as G'
      by (rewrite Z.gtb_ltb; apply Z.ltb_ge; exact G).
    rewrite G' in Ed. apply wait_due_none in HF. rewrite HF in Ed.
    eexists. intros rest. cbn [logLoop]. unfold iteration. rewrite Ed.
    reflexivity.
Qed.

(** ** Markers the loop writes *)

(** C10: in every state in which the loop starts a turn with a pending
    streak, the marker that logRecord makes in the slot at fifoHead encodes
    the streak plus one, which is at most 0x1000 and so below the tag bit
    0x8000; the first channel of the marker is the tag bit or-ed with that
    count and has the tag bit set, the marker test of printRecord is true
    for it, and the count printRecord decodes from its low 15 bits, and
    prints, is the encoded count. *)
Theorem loop_marker_tagged s rd :
  (0 < ADC_COUNT)%nat -> reachable s -> overrun s <> 0 ->
  let r := logRecord (slot_at (fifoData s) (fifoHead s)) (overrun s) rd in
  let n := overrun s + 1 in
  n <= 0x1000
  /\ adc_at r 0 = Z.lor 0x8000 n
  /\ Z.land (adc_at r 0) 0x8000 = 0x8000
  /\ isOverrun r = true
  /\ overrunCount r = n
  /\ forall nr, printRecord nr (Some r) = (u32 (nr + n), LineOverruns n).
Proof.
  intros HA R Ho. apply reachable_inv in R as [[] Hov]. cbv zeta.
  assert (adc (slot_at (fifoData s) (fifoHead s)) <> []) as Hd.
  { intros E. apply (f_equal length) in E.
    rewrite slot_at_shape in E by (try assumption; lia). simpl in E. lia. }
  pose proof (marker_first_channel _ (overrun s) rd Hd ltac:(lia) ltac:(lia))
    as Hm.
  pose proof (marker_decoded _ (overrun s) rd Hd ltac:(lia) ltac:(lia))
    as [Hi Hc].
  rewrite Hm, tag_test, tag_lor by lia.
  repeat split; try lia; try assumption.
  intros nr. apply marker_printed; try exact Hd; lia.
Qed.

(** * Further properties *)

(** ** Data records *)

Lemma sample_channels rd : forall n a (pre rest : list Z),
  length pre = a -> length rest = n ->
  adc (fold_left (fun d i => set_adc d i (rd i)) (seq a n)
         (mk_data (pre ++ rest)))
  = pre ++ map (fun k => u16 (rd k)) (seq a n).
Proof.
  induction n as [|n IH]; intros a pre rest Ha Hn.
  - destruct rest; [reflexivity | discriminate].
  - destruct rest as [|x rest]; [discriminate |].
    cbn [seq fold_left map]. unfold set_adc at 2. cbn [adc].
    replace a with (length pre + 0)%nat at 2 by lia.
    rewrite insert_app_r. cbn [insert list_insert].
    change (pre ++ u16 (rd a) :: rest) with (pre ++ [u16 (rd a)] ++ rest).
    rewrite app_assoc, IH.
    + rewrite <- app_assoc. reflexivity.
    + rewrite length_app. simpl. lia.
    + simpl in Hn. lia.
Qed.

(** X1: a record made by logRecord without a pending streak holds, in each
    of its ADC_COUNT channels, the reading of that channel cut to 16 bits;
    nothing of what the slot held before is left. *)
Theorem sample_overwrites_slot d rd :
  length (adc d) = ADC_COUNT ->
  adc (logRecord d 0 rd) = map (fun k => u16 (rd k)) (seq 0 ADC_COUNT).
Proof.
  intros Hd. unfold logRecord. cbn [Z.eqb negb]. destruct d as [l].
  cbn [adc] in Hd.
  exact (sample_channels rd ADC_COUNT 0%nat [] l eq_refl Hd).
Qed.

Lemma u16_range x : 0 <= u16 x < 65536.
Proof. unfold u16. change (2 ^ 16) with 65536. apply Z.mod_pos_bound. lia. Qed.

Lemma sample_first_channel d rd :
  length (adc d) = ADC_COUNT -> (0 < ADC_COUNT)%nat ->
  adc_at (logRecord d 0 rd) 0 = u16 (rd 0%nat).
Proof.
  intros Hd HA. unfold adc_at. rewrite sample_overwrites_slot by exact Hd.
  destruct ADC_COUNT; [lia | reflexivity].
Qed.

Lemma untagged_not_marker r :
  0 <= adc_at r 0 < 0x8000 -> isOverrun r = false.
Proof.
  intros H. unfold isOverrun. rewrite Z.land_comm, tag_land by exact H.
  reflexivity.
Qed.

Lemma tagged_marker r :
  0x8000 <= adc_at r 0 < 65536 ->
  isOverrun r = true /\ overrunCount r = adc_at r 0 - 0x8000.
Proof.
  intros H. unfold isOverrun, overrunCount.
  replace (adc_at r 0) with (0x8000 + (adc_at r 0 - 0x8000)) at 1 2 by lia.
  rewrite tag_test, tag_count by lia. split; [reflexivity |].
  apply u16_small. change (2 ^ 16) with 65536. lia.
Qed.

(** X2: a sample whose first reading, cut to 16 bits, is below 0x8000 is
    printed by printRecord as a data line: the current record number
    followed by the ADC_COUNT readings, and the record number goes up by
    one. *)
Theorem sample_printed_as_data d rd nr :
  length (adc d) = ADC_COUNT -> (0 < ADC_COUNT)%nat ->
  u16 (rd 0%nat) < 0x8000 ->
  printRecord nr (Some (logRecord d 0 rd))
  = (u32 (nr + 1),
     LineData nr (map (fun k => u16 (rd k)) (seq 0 ADC_COUNT))).
Proof.
  intros Hd HA Hr. pose proof (u16_range (rd 0%nat)) as Hu.
  unfold printRecord.
  rewrite untagged_not_marker
    by (rewrite sample_first_channel by assumption; lia).
  f_equal. f_equal. apply map_ext_in. intros k Hk. apply in_seq in Hk.
  unfold adc_at. rewrite sample_overwrites_slot by exact Hd.
  rewrite list_lookup_fmap, lookup_seq_lt by lia. reflexivity.
Qed.

(** X3: a sample whose first reading, cut to 16 bits, is 0x8000 or more is
    taken by printRecord for an overrun marker: the line reports that
    reading minus 0x8000 as a number of overruns, shows no channel, and the
    record number goes up by that number instead of by one. *)
Theorem sample_with_high_bit_read_as_marker d rd nr :
  length (adc d) = ADC_COUNT -> (0 < ADC_COUNT)%nat ->
  0x8000 <= u16 (rd 0%nat) ->
  printRecord nr (Some (logRecord d 0 rd))
  = (u32 (nr + (u16 (rd 0%nat) - 0x8000)),
     LineOverruns (u16 (rd 0%nat) - 0x8000)).
Proof.
  intros Hd HA Hr. pose proof (u16_range (rd 0%nat)) as Hu.
  unfold printRecord.
  destruct (tagged_marker (logRecord d 0 rd)) as [-> ->];
    rewrite sample_first_channel by assumption; [lia | reflexivity].
Qed.

(** ** The state a phase leaves, field by field *)

Lemma push_room_state i s :
  fifoCount s < FIFO_DIM ->
  let r := logRecord (slot_at (fifoData s) (fifoHead s)) (overrun s)
             (analogRead i) in
  let m := since (micros_log1 i) (u32 (micros_log0 i)) in
  push i s
  = Continue
      (mk_state (delta s) (maxDelta s)
         (if m >? maxLogMicros s then m else maxLogMicros s)
         (maxWriteMicros s) (maxFifoCount s) (usize (fifoCount s + 1))
         (if fifoHead s <? usize (FIFO_DIM - 1)
          then usize (fifoHead s + 1) else 0)
         (fifoTail s) 0
         (if negb (overrun s =? 0) && (overrun s >? maxOverrun s)
          then overrun s else maxOverrun s)
         (totalOverrun s)
         (<[Z.to_nat (fifoHead s) := r]> (fifoData s)) (logTime s)
         (trace s ++ [EvLogRecord (overrun s) r])).
Proof.
  intros Hc. cbv zeta. unfold push. apply Z.ltb_lt in Hc. rewrite Hc.
  fields; cbn [negb andb]; try reflexivity.
  all: apply negb_false_iff, Z.eqb_eq in G0; rewrite G0; reflexivity.
Qed.

Lemma jitter_state s :
  jitter s
  = Continue
      (mk_state (delta s)
         (if delta s >? maxDelta s then delta s else maxDelta s)
         (maxLogMicros s) (maxWriteMicros s) (maxFifoCount s) (fifoCount s)
         (fifoHead s) (fifoTail s) (overrun s) (maxOverrun s)
         (totalOverrun s) (fifoData s) (logTime s) (trace s)).
Proof.
  unfold jitter. fields; destruct s; reflexivity.
Qed.

Lemma write_accepted_state i s :
  isBusy i = false ->
  usize (write_nw s * sizeof_data_t) = usize (write_ret i) ->
  let nw := write_nw s in
  let usec := since (micros_wr1 i) (u32 (micros_wr0 i)) in
  let s' :=
    mk_state (delta s) (maxDelta s) (maxLogMicros s)
      (if usec >? maxWriteMicros s then usec else maxWriteMicros s)
      (if fifoCount s >? maxFifoCount s then fifoCount s else maxFifoCount s)
      (usize (fifoCount s - nw)) (fifoHead s)
      (if usize (fifoTail s + nw) <? FIFO_DIM
       then usize (fifoTail s + nw) else 0)
      (overrun s) (maxOverrun s) (totalOverrun s) (fifoData s) (logTime s)
      ((trace s ++ [EvWrite (write_span s (usize (nw * sizeof_data_t))) true])
       ++ [EvAvailable (available i)]) in
  write i s = if negb (available i =? 0) then Break s' else Continue s'.
Proof.
  intros Hb Hret. cbv zeta. unfold write. rewrite Hb. cbn [negb].
  apply Z.eqb_eq in Hret. rewrite Hret. cbn [negb].
  fields; reflexivity.
Qed.

Lemma write_refused_state i s :
  isBusy i = false ->
  usize (write_nw s * sizeof_data_t) <> usize (write_ret i) ->
  write i s
  = Halted "write binFile failed"
      (mk_state (delta s) (maxDelta s) (maxLogMicros s) (maxWriteMicros s)
         (maxFifoCount s) (fifoCount s) (fifoHead s) (fifoTail s)
         (overrun s) (maxOverrun s) (totalOverrun s) (fifoData s)
         (logTime s)
         ((trace s
           ++ [EvWrite (write_span s (usize (write_nw s * sizeof_data_t)))
                 false])
          ++ [EvError "write binFile failed"])).
Proof.
  intros Hb Hret. unfold write. rewrite Hb. cbn [negb].
  apply Z.eqb_neq in Hret. rewrite Hret. cbn [negb]. reflexivity.
Qed.

(** ** A completed turn, phase by phase *)

Lemma iteration_phases i s o :
  iteration i s = o ->
  (exists s', o = Continue s' \/ o = Break s') ->
  exists s1 s2 s3,
    deadline i s = Continue s1 /\ push i s1 = Continue s2
    /\ jitter s2 = Continue s3 /\ write i s3 = o.
Proof.
  intros E (s' & Ho). unfold iteration in E.
  destruct (before_write_cases i s) as [(s3 & E3 & _) | (sx & Ex & _)];
    cbv zeta in *.
  - rewrite E3 in E. cbn [and_then] in E.
    apply and_then_continue in E3 as (s2 & E2 & Ej).
    apply and_then_continue in E2 as (s1 & Ed & Ep).
    exists s1, s2, s3. auto.
  - exfalso. destruct Ex as [Ex | (msg & Ex)]; rewrite Ex in E;
      cbn [and_then] in E; subst o; destruct Ho; discriminate.
Qed.

Lemma deadline_continue_state i s s1 :
  deadline i s = Continue s1 ->
  exists d,
    0 <= d
    /\ s1 = mk_state d (maxDelta s) (maxLogMicros s) (maxWriteMicros s)
              (maxFifoCount s) (fifoCount s) (fifoHead s) (fifoTail s)
              (overrun s) (maxOverrun s) (totalOverrun s) (fifoData s)
              (u32 (logTime s + LOG_INTERVAL_USEC)) (trace s).
Proof.
  rewrite deadline_cases. cbv zeta. destruct (_ >? 0); [discriminate |].
  destruct (wait_due _ _ _) as [d |] eqn:Ew; [| discriminate].
  intros [= <-]. exists d. split; [| reflexivity].
  apply wait_due_some in Ew. apply Ew.
Qed.

(** What the write phase of a completed turn keeps. *)
Lemma write_keeps i s s' :
  write i s = Continue s' \/ write i s = Break s' ->
  delta s' = delta s /\ maxDelta s' = maxDelta s
  /\ overrun s' = overrun s /\ maxOverrun s' = maxOverrun s
  /\ totalOverrun s' = totalOverrun s
  /\ logged (trace s') = logged (trace s)
  /\ maxFifoCount s'
     = (if isBusy i then maxFifoCount s
        else if fifoCount s >? maxFifoCount s then fifoCount s
             else maxFifoCount s).
Proof.
  intros E. destruct (isBusy i) eqn:Hb.
  - rewrite write_busy in E by exact Hb.
    destruct E as [[= <-] | E]; [repeat split | discriminate].
  - destruct (Z.eq_dec (usize (write_nw s * sizeof_data_t))
                (usize (write_ret i))) as [Hr | Hr].
    + rewrite (write_accepted_state i s Hb Hr) in E. cbv zeta in E.
      destruct (negb (available i =? 0));
        destruct E as [E | E]; try discriminate; injection E as <-;
        cbn [delta maxDelta overrun maxOverrun totalOverrun trace
             maxFifoCount]; trace_emit; repeat split.
    + rewrite (write_refused_state i s Hb Hr) in E.
      destruct E; discriminate.
Qed.

(** What a completed turn does to the log and to the counters. *)
Lemma turn_effect i s s' :
  loop_inv s ->
  iteration i s = Continue s' \/ iteration i s = Break s' ->
  let r := logRecord (slot_at (fifoData s) (fifoHead s)) (overrun s)
             (analogRead i) in
  0 <= delta s'
  /\ maxDelta s' = (if delta s' >? maxDelta s then delta s' else maxDelta s)
  /\ ((fifoCount s < FIFO_DIM
       /\ logged (trace s') = logged (trace s) ++ [r]
       /\ overrun s' = 0 /\ totalOverrun s' = totalOverrun s
       /\ maxOverrun s'
          = (if negb (overrun s =? 0) && (overrun s >? maxOverrun s)
             then overrun s else maxOverrun s))
      \/ (fifoCount s = FIFO_DIM
          /\ logged (trace s') = logged (trace s)
          /\ overrun s' = overrun s + 1
          /\ totalOverrun s' = u32 (totalOverrun s + 1)
          /\ maxOverrun s' = maxOverrun s)).
Proof.
  intros [R Hov] E. cbv zeta.
  destruct (iteration_phases i s (iteration i s) eq_refl)
    as (s1 & s2 & s3 & Ed & Ep & Ej & Ew).
  { exists s'. exact E. }
  rewrite <- Ew in E. clear Ew.
  destruct (write_keeps i s3 s' E) as (Hd & Hm & Ho & Hmo & Ht & Hl & _).
  rewrite jitter_state in Ej. injection Ej as <-.
  cbn [delta maxDelta overrun maxOverrun totalOverrun trace] in *.
  apply deadline_continue_state in Ed as (d & Hd0 & ->).
  destruct R.
  destruct (Z_lt_le_dec (fifoCount s) FIFO_DIM) as [L | L].
  - rewrite push_room_state in Ep by exact L. cbv zeta in Ep.
    injection Ep as <-.
    cbn [delta maxDelta overrun maxOverrun totalOverrun trace fifoData
         fifoHead] in *.
    rewrite Hd, Hm, Ho, Hmo, Ht, Hl. trace_emit.
    split; [exact Hd0 |]. split; [reflexivity |]. left. repeat split.
    exact L.
  - rewrite push_full in Ep by exact L. cbv zeta in Ep.
    cbn [overrun totalOverrun] in Ep.
    destruct (_ >? 0xFFF) eqn:G; [discriminate |]. injection Ep as <-.
    rewrite Z.gtb_ltb in G. apply Z.ltb_ge in G.
    assert (u16 (overrun s + 1) = overrun s + 1) as Hu
      by (apply u16_small; change (2 ^ 16) with 65536; lia).
    setters. rewrite Hd, Hm, Ho, Hmo, Ht, Hl, Hu.
    split; [exact Hd0 |]. split; [reflexivity |]. right. repeat split.
    lia.
Qed.

(** ** Record numbers and lost samples *)

Lemma tally_nil f : tally f [] = 0.
Proof. reflexivity. Qed.

Lemma tally_cons f r rs : tally f (r :: rs) = f r + tally f rs.
Proof. reflexivity. Qed.

Lemma tally_app f rs1 rs2 : tally f (rs1 ++ rs2) = tally f rs1 + tally f rs2.
Proof.
  unfold tally. induction rs1 as [|r rs1 IH]; simpl; [lia |].
  rewrite IH. lia.
Qed.

Lemma printRecord_weight nr r :
  fst (printRecord nr (Some r)) = u32 (nr + weight r).
Proof. unfold printRecord, weight. destruct (isOverrun r); reflexivity. Qed.

Lemma printRecords_total rs : forall nr,
  u32 (fst (printRecords nr rs)) = u32 (nr + tally weight rs).
Proof.
  induction rs as [|r rs IH]; intros nr.
  - simpl. rewrite Z.add_0_r. reflexivity.
  - cbn [printRecords]. pose proof (printRecord_weight nr r) as Hw.
    destruct (printRecord nr (Some r)) as [nr1 line]. cbn [fst] in Hw.
    specialize (IH nr1).
    destruct (printRecords nr1 rs) as [nr2 lines]. cbn [fst] in *.
    rewrite IH, Hw, u32_add_l, tally_cons. f_equal; lia.
Qed.

Lemma printRecords_wrapped rs : forall nr,
  u32 nr = nr -> u32 (fst (printRecords nr rs)) = fst (printRecords nr rs).
Proof.
  induction rs as [|r rs IH]; intros nr Hn; [exact Hn |].
  cbn [printRecords]. pose proof (printRecord_weight nr r) as Hw.
  destruct (printRecord nr (Some r)) as [nr1 line]. cbn [fst] in Hw.
  specialize (IH nr1).
  destruct (printRecords nr1 rs) as [nr2 lines]. cbn [fst] in *.
  apply IH. rewrite Hw. apply u32_idem.
Qed.

Lemma printRecords_lines rs : forall nr,
  length (snd (printRecords nr rs)) = length rs.
Proof.
  induction rs as [|r rs IH]; intros nr; [reflexivity |].
  cbn [printRecords]. destruct (printRecord nr (Some r)) as [nr1 line].
  specialize (IH nr1). destruct (printRecords nr1 rs) as [nr2 lines].
  simpl in *. rewrite IH. reflexivity.
Qed.

(** The record a turn logs, weighed. *)
Lemma logged_record_weight s rd :
  loop_inv s -> (0 < ADC_COUNT)%nat -> u16 (rd 0%nat) < 0x8000 ->
  let r := logRecord (slot_at (fifoData s) (fifoHead s)) (overrun s) rd in
  weight r = overrun s + 1 /\ lost r = overrun s.
Proof.
  intros [[] Hov] HA Hr. cbv zeta. unfold weight, lost.
  assert (length (adc (slot_at (fifoData s) (fifoHead s))) = ADC_COUNT)
    as Hs by (apply slot_at_shape; [assumption | lia]).
  destruct (Z.eq_dec (overrun s) 0) as [E | E].
  - rewrite E. pose proof (u16_range (rd 0%nat)).
    rewrite untagged_not_marker
      by (rewrite sample_first_channel by assumption; lia).
    lia.
  - assert (adc (slot_at (fifoData s) (fifoHead s)) <> []) as Hne.
    { intros E0. rewrite E0 in Hs. simpl in Hs. lia. }
    destruct (marker_decoded _ (overrun s) rd Hne ltac:(lia) ltac:(lia))
      as [-> ->].
    lia.
Qed.

(** One completed turn accounts for one sample slot. *)
Lemma turn_accounts i s s' :
  loop_inv s -> (0 < ADC_COUNT)%nat ->
  u16 (analogRead i 0%nat) < 0x8000 ->
  iteration i s = Continue s' \/ iteration i s = Break s' ->
  tally weight (logged (trace s')) + overrun s'
  = tally weight (logged (trace s)) + overrun s + 1
  /\ u32 (totalOverrun s' - (tally lost (logged (trace s')) + overrun s'))
     = u32 (totalOverrun s - (tally lost (logged (trace s)) + overrun s))
  /\ (u32 (totalOverrun s) = totalOverrun s ->
      u32 (totalOverrun s') = totalOverrun s').
Proof.
  intros H HA Hr E.
  destruct (logged_record_weight s (analogRead i) H HA Hr) as [Hw Hl].
  destruct (turn_effect i s s' H E)
    as (_ & _ & [(_ & -> & -> & -> & _) | (_ & -> & -> & -> & _)]).
  - rewrite !tally_app, !tally_cons, !tally_nil, Hw, Hl.
    split; [lia |]. split; [f_equal; lia | auto].
  - split; [lia |]. split; [| intros _; apply u32_idem].
    unfold u32. rewrite Zminus_mod_idemp_l. f_equal. lia.
Qed.

Lemma loop_accounts ins : forall s s',
  reachable s -> (0 < ADC_COUNT)%nat ->
  Forall (fun i => u16 (analogRead i 0%nat) < 0x8000) ins ->
  logLoop ins s = Continue s' ->
  tally weight (logged (trace s')) + overrun s'
  = tally weight (logged (trace s)) + overrun s + Z.of_nat (length ins)
  /\ u32 (totalOverrun s' - (tally lost (logged (trace s')) + overrun s'))
     = u32 (totalOverrun s - (tally lost (logged (trace s)) + overrun s))
  /\ (u32 (totalOverrun s) = totalOverrun s ->
      u32 (totalOverrun s') = totalOverrun s').
Proof.
  induction ins as [|i ins IH]; intros s s' R HA HF E.
  - injection E as <-. split; [simpl; lia |]. split; [reflexivity | auto].
  - cbn [logLoop] in E. inversion HF as [|? ? Hi HF']; subst.
    destruct (iteration i s) as [s1 | | |] eqn:Ei; try discriminate.
    destruct (turn_accounts i s s1 (reachable_inv s R) HA Hi)
      as (H1 & H2 & H2'); [left; exact Ei |].
    destruct (IH s1 s' (reach_turn i s s1 R Ei) HA HF' E) as (H3 & H4 & H4').
    split; [rewrite H3, H1; cbn [length]; lia |].
    split; [congruence | auto].
Qed.

(** X4: when the first reading of every turn, cut to 16 bits, is below
    0x8000, then after K turns with the loop still running the record
    numbers that printRecord gives to the logged records, plus the pending
    streak, add up to K: every turn is one record number, whether it was
    sampled, skipped for a full buffer, or used for a marker. Printing the
    log after a header ends with the record number K minus the pending
    streak, modulo 2^32. *)
Theorem record_numbers_count_turns t0 fd ins s :
  Z.of_nat (length fd) = FIFO_DIM ->
  Forall (fun d => length (adc d) = ADC_COUNT) fd ->
  (0 < ADC_COUNT)%nat ->
  Forall (fun i => u16 (analogRead i 0%nat) < 0x8000) ins ->
  logData t0 fd ins = Continue s ->
  tally weight (logged (trace s)) + overrun s = Z.of_nat (length ins)
  /\ fst (printRecords (fst (printRecord 0 None)) (logged (trace s)))
     = u32 (Z.of_nat (length ins) - overrun s).
Proof.
  intros Hlen Hshape HA HF E.
  destruct (loop_accounts ins _ s (reach_init t0 fd Hlen Hshape) HA HF E)
    as [H _].
  cbn [logData_init trace overrun logged omap] in H.
  rewrite tally_nil in H. split; [lia |]. cbn [printRecord fst].
  rewrite <- printRecords_wrapped by reflexivity.
  rewrite printRecords_total. f_equal. lia.
Qed.

(** X5: under the same condition on the readings, totalOverrun is, modulo
    2^32, the number of samples the log reports as lost: for each logged
    marker its count less the slot of the marker itself, plus the pending
    streak. *)
Theorem total_overrun_matches_markers t0 fd ins s :
  Z.of_nat (length fd) = FIFO_DIM ->
  Forall (fun d => length (adc d) = ADC_COUNT) fd ->
  (0 < ADC_COUNT)%nat ->
  Forall (fun i => u16 (analogRead i 0%nat) < 0x8000) ins ->
  logData t0 fd ins = Continue s ->
  0 <= totalOverrun s < 2 ^ 32
  /\ totalOverrun s = u32 (tally lost (logged (trace s)) + overrun s).
Proof.
  intros Hlen Hshape HA HF E.
  destruct (loop_accounts ins _ s (reach_init t0 fd Hlen Hshape) HA HF E)
    as (_ & H & Hn).
  cbn [logData_init trace overrun totalOverrun logged omap] in H, Hn.
  rewrite tally_nil in H. specialize (Hn eq_refl). split.
  - rewrite <- Hn. unfold u32. apply Z.mod_pos_bound. lia.
  - set (x := tally lost (logged (trace s)) + overrun s) in *.
    rewrite <- Hn.
    replace (totalOverrun s) with ((totalOverrun s - x) + x) at 1 by lia.
    rewrite <- u32_add_l, H. reflexivity.
Qed.

(** ** Occupancy and the running maxima *)

Lemma write_nw_pos s :
  ring_ok s -> 1 <= fifoCount s -> 1 <= MAX_WRITE -> 1 <= write_nw s.
Proof.
  intros [] Hc HM. pose proof FIFO_DIM_le as HD.
  destruct (head_cases FIFO_DIM (fifoTail s) (fifoCount s) (fifoHead s))
    as [[L E] | [L E]]; try assumption.
  all: unfold write_nw.
  all: rewrite (usize_small (FIFO_DIM - fifoTail s)) by lia.
  all: destruct (fifoHead s >? fifoTail s) eqn:GT;
         [apply Z.gtb_lt in GT | rewrite Z.gtb_ltb in GT; apply Z.ltb_ge in GT].
  all: match goal with
       | |- context [if ?c then _ else _] => destruct c
       end.
  all: lia.
Qed.

(** The state between the jitter and the write of a completed turn. *)
Lemma turn_before_write i s s' :
  loop_inv s ->
  iteration i s = Continue s' \/ iteration i s = Break s' ->
  exists s3,
    and_then (and_then (deadline i s) (push i)) jitter = Continue s3
    /\ (write i s3 = Continue s' \/ write i s3 = Break s')
    /\ ring_ok s3
    /\ fifoCount s3
       = (if fifoCount s <? FIFO_DIM then fifoCount s + 1 else fifoCount s)
    /\ maxFifoCount s3 = maxFifoCount s
    /\ written (trace s3) = written (trace s).
Proof.
  intros H E.
  destruct (iteration_phases i s (iteration i s) eq_refl)
    as (s1 & s2 & s3 & Ed & Ep & Ej & Ew).
  { exists s'. exact E. }
  rewrite <- Ew in E. exists s3.
  split; [rewrite Ed; cbn [and_then]; rewrite Ep; exact Ej |].
  split; [exact E |].
  pose proof (pushed_ring_ok i s H) as R2.
  rewrite Ed in R2. cbn [and_then] in R2. rewrite Ep in R2.
  cbn [outcome_state] in R2.
  destruct (jitter_frame s2) as (s3' & Ej' & HB & HQ & _).
  rewrite Ej in Ej'. injection Ej' as <-.
  split; [eapply ring_ok_same; eassumption |].
  rewrite jitter_state in Ej. injection Ej as <-.
  cbn [fifoCount maxFifoCount trace].
  destruct (deadline_frame i s) as ((Hc1 & _) & (_ & Hw1 & _) & _).
  rewrite Ed in Hc1, Hw1. cbn [outcome_state] in Hc1, Hw1.
  apply deadline_continue_state in Ed as (d & _ & Es1).
  destruct (push_frame i s1) as (_ & _ & _ & Hw2 & _).
  rewrite Ep in Hw2. cbn [outcome_state] in Hw2.
  destruct H as [[] _]. pose proof FIFO_DIM_le as HD.
  destruct (Z_lt_le_dec (fifoCount s) FIFO_DIM) as [L | L].
  - assert ((fifoCount s <? FIFO_DIM) = true) as -> by (apply Z.ltb_lt; lia).
    rewrite push_room_state in Ep by lia. cbv zeta in Ep. injection Ep as <-.
    cbn [fifoCount maxFifoCount trace] in *. subst s1.
    cbn [fifoCount maxFifoCount trace] in *.
    rewrite usize_small by lia. repeat split; congruence.
  - assert ((fifoCount s <? FIFO_DIM) = false) as -> by (apply Z.ltb_ge; lia).
    rewrite push_full in Ep by lia. cbv zeta in Ep.
    destruct (_ >? 0xFFF); [discriminate |]. injection Ep as <-.
    subst s1. setters. repeat split; congruence.
Qed.

(** How full the buffer is after a completed turn, and the largest
    occupancy seen. *)
Lemma turn_occupancy i s s' :
  loop_inv s ->
  iteration i s = Continue s' \/ iteration i s = Break s' ->
  let c := if fifoCount s <? FIFO_DIM then fifoCount s + 1 else fifoCount s in
  maxFifoCount s'
  = (if isBusy i then maxFifoCount s
     else if c >? maxFifoCount s then c else maxFifoCount s)
  /\ 0 <= fifoCount s' <= c
  /\ (isBusy i = true ->
      fifoCount s' = c /\ written (trace s') = written (trace s)).
Proof.
  intros H E. cbv zeta.
  destruct (turn_before_write i s s' H E)
    as (s3 & _ & Ew & R3 & Hc3 & Hm3 & Hw3).
  destruct (write_keeps i s3 s' Ew) as (_ & _ & _ & _ & _ & _ & Hm).
  rewrite Hm, Hm3, Hc3. split; [reflexivity |].
  assert (1 <= fifoCount s3) as Hpos.
  { destruct H as [[] _]. rewrite Hc3.
    destruct (fifoCount s <? FIFO_DIM) eqn:L;
      [| apply Z.ltb_ge in L]; lia. }
  destruct (isBusy i) eqn:Hb.
  - rewrite write_busy in Ew by exact Hb.
    destruct Ew as [[= <-] | Ew]; [| discriminate].
    rewrite Hc3, Hw3. repeat split; lia.
  - destruct (write_idle_buffered i s3 R3 Hpos Hb) as [_ Hrest].
    destruct (Hrest s' Ew) as (Hc' & _).
    destruct (write_nw_range s3 R3 Hpos) as (Hn & _).
    rewrite <- Hc3. split; [lia | discriminate].
Qed.

Lemma turn_stats i s s' :
  loop_inv s -> stats_ok s ->
  iteration i s = Continue s' \/ iteration i s = Break s' ->
  stats_ok s'
  /\ 0 <= delta s' <= maxDelta s' /\ maxDelta s <= maxDelta s'
  /\ maxOverrun s <= maxOverrun s'
  /\ (fifoCount s < FIFO_DIM -> overrun s <= maxOverrun s')
  /\ maxFifoCount s <= maxFifoCount s'
  /\ (isBusy i = false -> fifoCount s' <= maxFifoCount s').
Proof.
  intros H (Hmd & Hmo & Hmf) E.
  destruct (turn_effect i s s' H E) as (Hd & Hm & Hpush).
  destruct (turn_occupancy i s s' H E) as (Hf & Hc & _).
  cbv zeta in *. destruct H as [[] Hov].
  assert (maxDelta s <= maxDelta s' /\ delta s' <= maxDelta s') as [Hm1 Hm2].
  { rewrite Hm. destruct (delta s' >? maxDelta s) eqn:G;
      [apply Z.gtb_lt in G | rewrite Z.gtb_ltb in G; apply Z.ltb_ge in G];
      lia. }
  assert (maxOverrun s <= maxOverrun s' <= 0xFFF
          /\ (fifoCount s < FIFO_DIM -> overrun s <= maxOverrun s'))
    as [Ho1 Ho2].
  { destruct Hpush as [(L & _ & _ & _ & ->) | (L & _ & _ & _ & ->)];
      [| lia].
    destruct (overrun s =? 0) eqn:Z0; cbn [negb andb];
      [apply Z.eqb_eq in Z0; lia |].
    destruct (overrun s >? maxOverrun s) eqn:G;
      [apply Z.gtb_lt in G | rewrite Z.gtb_ltb in G; apply Z.ltb_ge in G];
      lia. }
  assert (maxFifoCount s <= maxFifoCount s' <= FIFO_DIM
          /\ (isBusy i = false -> fifoCount s' <= maxFifoCount s'))
    as [Hf1 Hf2].
  { rewrite Hf. destruct (isBusy i); [split; [lia | discriminate] |].
    destruct (fifoCount s <? FIFO_DIM) eqn:L; rewrite ?L in Hc;
      [apply Z.ltb_lt in L | apply Z.ltb_ge in L];
      match goal with
      | |- context [if ?c >? ?m then _ else _] =>
          destruct (c >? m) eqn:G;
          [apply Z.gtb_lt in G | rewrite Z.gtb_ltb in G; apply Z.ltb_ge in G]
      end; (split; [lia | intros _; lia]). }
  unfold stats_ok. repeat split; try assumption; lia.
Qed.

Lemma reachable_stats s : reachable s -> stats_ok s.
Proof.
  induction 1 as [t0 fd Hlen Hshape | i s s' R IH E].
  - unfold stats_ok. simpl. lia.
  - apply (turn_stats i s s' (reachable_inv s R) IH). left. exact E.
Qed.

(** X6: in every turn that completes, the jitter delta it ends with is not
    negative and not above maxDelta; maxDelta, maxOverrun and maxFifoCount
    never go down; maxOverrun stays within 0xFFF and is at least the streak
    a marker of this turn encodes; maxFifoCount stays within FIFO_DIM and,
    when the card was idle, is at least the occupancy left after the
    write. *)
Theorem maxima_bound_observations i s s' :
  reachable s ->
  iteration i s = Continue s' \/ iteration i s = Break s' ->
  0 <= delta s' <= maxDelta s' /\ maxDelta s <= maxDelta s'
  /\ maxOverrun s <= maxOverrun s' <= 0xFFF
  /\ (fifoCount s < FIFO_DIM -> overrun s <= maxOverrun s')
  /\ maxFifoCount s <= maxFifoCount s' <= FIFO_DIM
  /\ (isBusy i = false -> fifoCount s' <= maxFifoCount s').
Proof.
  intros R E.
  destruct (turn_stats i s s' (reachable_inv s R) (reachable_stats s R) E)
    as ((_ & Hmo & Hmf) & Hd & Hm & Ho & Hs & Hf & Hb).
  repeat split; try assumption; lia.
Qed.

(** ** A card that is always idle *)

Lemma MAX_WRITE_pos : sizeof_data_t <= 512 -> 1 <= MAX_WRITE.
Proof.
  intros H. pose proof sizeof_pos. unfold MAX_WRITE.
  apply Z.div_le_lower_bound; lia.
Qed.

Lemma idle_turn i s s' :
  loop_inv s -> fifoCount s = 0 -> overrun s = 0 ->
  sizeof_data_t <= 512 -> isBusy i = false ->
  iteration i s = Continue s' \/ iteration i s = Break s' ->
  fifoCount s' = 0 /\ overrun s' = 0 /\ totalOverrun s' = totalOverrun s
  /\ logged (trace s')
     = logged (trace s)
       ++ [logRecord (slot_at (fifoData s) (fifoHead s)) 0 (analogRead i)]
  /\ written (trace s') = logged (trace s')
  /\ maxFifoCount s'
     = (if 1 >? maxFifoCount s then 1 else maxFifoCount s).
Proof.
  intros H Hc Ho Hsz Hb E.
  destruct (turn_effect i s s' H E) as (_ & _ & Hpush). cbv zeta in Hpush.
  destruct Hpush as [(_ & Hl & Ho' & Ht & _) | (L & _)]; [| lia].
  destruct (turn_occupancy i s s' H E) as (Hm & _). cbv zeta in Hm.
  destruct (turn_before_write i s s' H E)
    as (s3 & _ & Ew & R3 & Hc3 & _).
  rewrite Hc, Hb in *.
  assert ((0 <? FIFO_DIM) = true) as L by (apply Z.ltb_lt; lia).
  rewrite L in *. cbn [Z.add] in *. change (0 + 1) with 1 in *.
  destruct (write_idle_buffered i s3 R3 ltac:(lia) Hb) as [_ Hrest].
  destruct (Hrest s' Ew) as (Hc' & _).
  destruct (write_nw_range s3 R3 ltac:(lia)) as (Hn & _).
  pose proof (write_nw_pos s3 R3 ltac:(lia) (MAX_WRITE_pos Hsz)) as Hn1.
  assert (fifoCount s' = 0) as Hz by lia.
  pose proof (iteration_ring_ok i s H) as R'.
  assert (outcome_state (iteration i s) = s') as Es
    by (destruct E as [-> | ->]; reflexivity).
  rewrite Es in R'. destruct R'.
  rewrite (buffered_empty_count s' Hz), app_nil_r in history0.
  rewrite Ho in Hl. repeat split; try assumption; congruence.
Qed.

Lemma idle_loop ins : forall s s',
  reachable s -> fifoCount s = 0 -> overrun s = 0 ->
  sizeof_data_t <= 512 -> Forall (fun i => isBusy i = false) ins ->
  logLoop ins s = Continue s' \/ logLoop ins s = Break s' ->
  fifoCount s' = 0 /\ overrun s' = 0 /\ totalOverrun s' = totalOverrun s
  /\ written (trace s') = logged (trace s')
  /\ length (logged (trace s'))
     = (length (logged (trace s)) + turns ins s)%nat
  /\ maxFifoCount s' <= Z.max 1 (maxFifoCount s).
Proof.
  induction ins as [|i ins IH]; intros s s' R Hc Ho Hsz HF E.
  - destruct E as [[= <-] | E]; [| discriminate].
    destruct (reachable_inv s R) as [[] _].
    rewrite (buffered_empty_count s Hc), app_nil_r in history0.
    cbn [turns]. repeat split; try assumption; try lia. congruence.
  - inversion HF as [|? ? Hb HF']; subst. cbn [logLoop turns] in *.
    destruct (iteration i s) as [s1 | s1 | msg s1 | s1] eqn:Ei.
    + destruct (idle_turn i s s1 (reachable_inv s R) Hc Ho Hsz Hb)
        as (Hc1 & Ho1 & Ht1 & Hl1 & _ & Hm1); [left; exact Ei |].
      destruct (IH s1 s' (reach_turn i s s1 R Ei) Hc1 Ho1 Hsz HF' E)
        as (H1 & H2 & H3 & H4 & H5 & H6).
      assert (length (logged (trace s1)) = S (length (logged (trace s))))
        as Hl by (rewrite Hl1, length_app; cbn [length]; lia).
      assert (maxFifoCount s' <= Z.max 1 (maxFifoCount s)) as Hm.
      { rewrite Hm1 in H6. destruct (1 >? maxFifoCount s) eqn:G;
          [apply Z.gtb_lt in G | rewrite Z.gtb_ltb in G; apply Z.ltb_ge in G];
          lia. }
      repeat split; try assumption; try congruence; lia.
    + destruct E as [E | [= <-]]; [discriminate |].
      destruct (idle_turn i s s1 (reachable_inv s R) Hc Ho Hsz Hb)
        as (Hc1 & Ho1 & Ht1 & Hl1 & Hw1 & Hm1); [right; exact Ei |].
      assert (length (logged (trace s1)) = S (length (logged (trace s))))
        as Hl by (rewrite Hl1, length_app; cbn [length]; lia).
      assert (maxFifoCount s1 <= Z.max 1 (maxFifoCount s)) as Hm.
      { rewrite Hm1. destruct (1 >? maxFifoCount s) eqn:G;
          [apply Z.gtb_lt in G | rewrite Z.gtb_ltb in G; apply Z.ltb_ge in G];
          lia. }
      repeat split; try assumption; lia.
    + destruct E; discriminate.
    + destruct E; discriminate.
Qed.

(** X7: when a record is at most 512 bytes and the card is idle in every
    turn, then as long as the session runs, and when it is stopped, no turn
    overruns, the buffer is empty after every turn, maxFifoCount is at most
    1, and the records handed to binFile.write are exactly the records
    logged, one per turn. *)
Theorem idle_card_keeps_up t0 fd ins s :
  Z.of_nat (length fd) = FIFO_DIM ->
  Forall (fun d => length (adc d) = ADC_COUNT) fd ->
  sizeof_data_t <= 512 ->
  Forall (fun i => isBusy i = false) ins ->
  logData t0 fd ins = Continue s \/ logData t0 fd ins = Break s ->
  totalOverrun s = 0 /\ overrun s = 0 /\ fifoCount s = 0
  /\ maxFifoCount s <= 1
  /\ written (trace s) = logged (trace s)
  /\ length (logged (trace s)) = turns ins (logData_init t0 fd).
Proof.
  intros Hlen Hshape Hsz HF E.
  destruct (idle_loop ins _ s (reach_init t0 fd Hlen Hshape)
              eq_refl eq_refl Hsz HF E) as (H1 & H2 & H3 & H4 & H5 & H6).
  cbn [logData_init totalOverrun maxFifoCount trace logged omap length] in *.
  repeat split; try assumption; lia.
Qed.

(** ** A card that stays busy *)

Lemma busy_turn i s s' :
  loop_inv s -> isBusy i = true -> iteration i s = Continue s' ->
  written (trace s') = written (trace s)
  /\ ((fifoCount s < FIFO_DIM /\ fifoCount s' = fifoCount s + 1
       /\ overrun s' = 0 /\ totalOverrun s' = totalOverrun s
       /\ length (logged (trace s')) = S (length (logged (trace s))))
      \/ (fifoCount s = FIFO_DIM /\ fifoCount s' = FIFO_DIM
          /\ overrun s' = overrun s + 1
          /\ totalOverrun s' = u32 (totalOverrun s + 1)
          /\ length (logged (trace s')) = length (logged (trace s)))).
Proof.
  intros H Hb E.
  destruct (turn_effect i s s' H (or_introl E)) as (_ & _ & Hpush).
  destruct (turn_occupancy i s s' H (or_introl E)) as (_ & _ & Hbusy).
  cbv zeta in *. destruct (Hbusy Hb) as [Hc Hw]. split; [exact Hw |].
  destruct Hpush as [(L & Hl & Ho & Ht & _) | (L & Hl & Ho & Ht & _)].
  - left. assert ((fifoCount s <? FIFO_DIM) = true) as G
      by (apply Z.ltb_lt; lia).
    rewrite G in Hc. rewrite Hl, length_app. cbn [length].
    repeat split; try assumption; lia.
  - right. assert ((fifoCount s <? FIFO_DIM) = false) as G
      by (apply Z.ltb_ge; lia).
    rewrite G in Hc. rewrite Hl. repeat split; try assumption; lia.
Qed.

Lemma u32_add_r a b : u32 (a + u32 b) = u32 (a + b).
Proof. unfold u32. apply Zplus_mod_idemp_r. Qed.

Lemma reachable_totalOverrun s :
  reachable s -> u32 (totalOverrun s) = totalOverrun s.
Proof.
  induction 1 as [t0 fd Hlen Hshape | i s s' R IH E]; [reflexivity |].
  destruct (turn_effect i s s' (reachable_inv s R) (or_introl E))
    as (_ & _ & [(_ & _ & _ & -> & _) | (_ & _ & _ & -> & _)]);
    [exact IH | apply u32_idem].
Qed.

Lemma busy_loop ins : forall s s',
  reachable s -> overrun s = 0 \/ fifoCount s = FIFO_DIM ->
  Forall (fun i => isBusy i = true) ins ->
  logLoop ins s = Continue s' ->
  let k := Z.of_nat (length ins) in
  let room := FIFO_DIM - fifoCount s in
  fifoCount s' = Z.min (fifoCount s + k) FIFO_DIM
  /\ overrun s' = overrun s + Z.max 0 (k - room)
  /\ totalOverrun s' = u32 (totalOverrun s + Z.max 0 (k - room))
  /\ written (trace s') = written (trace s)
  /\ Z.of_nat (length (logged (trace s')))
     = Z.of_nat (length (logged (trace s))) + Z.min k room.
Proof.
  induction ins as [|i ins IH]; intros s s' R J HF E; cbv zeta.
  - injection E as <-. destruct (reachable_inv s R) as [[] _].
    pose proof (reachable_totalOverrun s R) as Ht. cbn [length].
    change (Z.of_nat 0) with 0.
    replace (Z.max 0 (0 - (FIFO_DIM - fifoCount s))) with 0 by lia.
    rewrite !Z.add_0_r, Ht. repeat split; lia.
  - inversion HF as [|? ? Hb HF']; subst. cbn [logLoop] in E.
    destruct (iteration i s) as [s1 | | |] eqn:Ei; try discriminate.
    pose proof (reach_turn i s s1 R Ei) as R1.
    destruct (reachable_inv s R) as [[] Hov].
    destruct (busy_turn i s s1 (reachable_inv s R) Hb Ei)
      as (Hw & [(L & Hc & Ho & Ht & Hl) | (L & Hc & Ho & Ht & Hl)]).
    + assert (overrun s = 0) as Ho0 by (destruct J; lia).
      destruct (IH s1 s' R1 (or_introl Ho) HF' E)
        as (H1 & H2 & H3 & H4 & H5). cbv zeta in *.
      rewrite H1, H2, H3, H4, H5, Hc, Ho, Ht, Hw, Hl, Ho0.
      cbn [length]. repeat split; try lia. f_equal. lia.
    + destruct (IH s1 s' R1 (or_intror Hc) HF' E)
        as (H1 & H2 & H3 & H4 & H5). cbv zeta in *.
      rewrite H1, H2, H3, H4, H5, Hc, Ho, Ht, Hw, Hl, L, u32_add_l.
      cbn [length]. repeat split; try lia. f_equal. lia.
Qed.

(** X8: from the start of a session, K turns with the card busy, the loop
    still running afterwards, leave min(K, FIFO_DIM) records buffered and
    none written; the turns beyond FIFO_DIM are all counted as overruns,
    both in the pending streak and in totalOverrun. *)
Theorem busy_card_fills_then_overruns t0 fd ins s :
  Z.of_nat (length fd) = FIFO_DIM ->
  Forall (fun d => length (adc d) = ADC_COUNT) fd ->
  Forall (fun i => isBusy i = true) ins ->
  logData t0 fd ins = Continue s ->
  fifoCount s = Z.min (Z.of_nat (length ins)) FIFO_DIM
  /\ overrun s = Z.max 0 (Z.of_nat (length ins) - FIFO_DIM)
  /\ totalOverrun s = Z.max 0 (Z.of_nat (length ins) - FIFO_DIM)
  /\ written (trace s) = []
  /\ Z.of_nat (length (logged (trace s)))
     = Z.min (Z.of_nat (length ins)) FIFO_DIM.
Proof.
  intros Hlen Hshape HF E.
  pose proof (reach_init t0 fd Hlen Hshape) as R0.
  destruct (busy_loop ins _ s R0 (or_introl eq_refl) HF E)
    as (H1 & H2 & H3 & H4 & H5). cbv zeta in *.
  cbn [logData_init fifoCount overrun totalOverrun trace logged written omap
       concat length] in *.
  rewrite Z.sub_0_r, Z.add_0_l in *.
  split; [exact H1 |]. split; [exact H2 |]. split; [| split; [exact H4 | lia]].
  pose proof (reachable_inv s (reachable_logLoop ins _ s R0 E)) as [_ Hov].
  rewrite H3. apply Z.mod_small. lia.
Qed.


(** ** A write the card does not take *)

(** X13: when the card is idle and binFile.write returns anything but the
    number of bytes asked for, the loop halts with the diagnostic "write
    binFile failed", whatever would have followed: the records stay in
    the buffer, fifoTail and fifoCount are not advanced, the span is not
    counted as written and the stop signal is not polled. *)
Theorem short_write_halts i s s3 :
  and_then (and_then (deadline i s) (push i)) jitter = Continue s3 ->
  isBusy i = false ->
  usize (write_nw s3 * sizeof_data_t) <> usize (write_ret i) ->
  exists s',
    (forall rest, logLoop (i :: rest) s = Halted "write binFile failed" s')
    /\ same_buffer s3 s'
    /\ written (trace s') = written (trace s3)
    /\ writes (trace s') = S (writes (trace s3))
    /\ polls (trace s') = polls (trace s3).
Proof.
  intros E Hb Hr. eexists. split.
  - intros rest. cbn [logLoop]. unfold iteration. rewrite E.
    cbn [and_then]. rewrite (write_refused_state i s3 Hb Hr). reflexivity.
  - unfold same_buffer. cbn [fifoCount fifoHead fifoTail fifoData trace].
    trace_emit. repeat split. lia.
Qed.

(** ** Printing a file in chunks *)












End Logger.

(** * File names and input lines *)

Lemma nth_middle_Z (l : list Z) x rest : nth (length l) (l ++ x :: rest) 0 = x.
Proof. induction l as [|y l IH]; [reflexivity | exact IH]. Qed.

Lemma insert_middle_Z (l : list Z) x y rest :
  <[length l := y]> (l ++ x :: rest) = l ++ y :: rest.
Proof.
  induction l as [|z l IH]; [reflexivity |]. simpl. f_equal. exact IH.
Qed.

(** X9: where the characters before position p end in a digit d other
    than 9 followed by k nines, the renaming loop of createBinFile turns d
    into the next digit and the k nines into zeros, and leaves every other
    character of the name as it was: the version number goes up by one,
    with carry. *)
Theorem next_version_carries k : forall pre d rest,
  chr "0" <= d < chr "9" ->
  next_version (pre ++ d :: replicate k (chr "9") ++ rest)
    (length pre + 1 + k)
  = Some (pre ++ (d + 1) :: replicate k (chr "0") ++ rest).
Proof.
  change (chr "0") with 48. change (chr "9") with 57.
  induction k as [|k IH]; intros pre d rest Hd.
  - replace (length pre + 1 + 0)%nat with (S (length pre)) by lia.
    cbn [next_version replicate app]. rewrite nth_middle_Z.
    change (chr "0") with 48. change (chr "9") with 57.
    replace (d <? 48) with false by (symmetry; apply Z.ltb_ge; lia).
    replace (d >? 57) with false
      by (symmetry; rewrite Z.gtb_ltb; apply Z.ltb_ge; lia).
    replace (d =? 57) with false by (symmetry; apply Z.eqb_neq; lia).
    cbn [orb negb]. rewrite insert_middle_Z. reflexivity.
  - replace (length pre + 1 + S k)%nat
      with (S (length (pre ++ d :: replicate k 57))).
    2:{ rewrite length_app. cbn [length]. rewrite length_replicate. lia. }
    replace (pre ++ d :: replicate (S k) 57 ++ rest)
      with ((pre ++ d :: replicate k 57) ++ 57 :: rest).
    2:{ rewrite <- app_assoc. cbn [app]. f_equal. f_equal.
        rewrite replicate_S_end, <- app_assoc. reflexivity. }
    cbn [next_version]. rewrite nth_middle_Z.
    change (chr "0") with 48. change (chr "9") with 57.
    cbn [Z.ltb Z.gtb Z.eqb Z.compare Pos.compare Pos.compare_cont Pos.eqb
         orb negb].
    rewrite insert_middle_Z.
    replace (length (pre ++ d :: replicate k 57))
      with (length pre + 1 + k)%nat.
    2:{ rewrite length_app. cbn [length]. rewrite length_replicate. lia. }
    rewrite <- app_assoc. cbn [app]. rewrite IH by exact Hd.
    f_equal. f_equal. f_equal.
    rewrite replicate_S_end, <- app_assoc. reflexivity.
Qed.

(** X10: where the characters before position p are k nines with the
    start of the name, or a character that is no digit, before them, the
    renaming loop of createBinFile fails ("Can't create file name"): a
    version of all nines is not rolled over and gains no digit, and a name
    with no digit before the dot cannot be versioned. *)
Theorem next_version_exhausted k : forall pre rest,
  (pre = [] \/ exists pre' c, pre = pre' ++ [c]
                              /\ (c < chr "0" \/ chr "9" < c)) ->
  next_version (pre ++ replicate k (chr "9") ++ rest) (length pre + k) = None.
Proof.
  change (chr "0") with 48. change (chr "9") with 57.
  induction k as [|k IH]; intros pre rest Hpre.
  - rewrite Nat.add_0_r. cbn [replicate app].
    destruct Hpre as [-> | (pre' & c & -> & Hc)]; [reflexivity |].
    rewrite length_app. cbn [length].
    replace (length pre' + 1)%nat with (S (length pre')) by lia.
    cbn [next_version]. rewrite <- app_assoc. cbn [app].
    rewrite nth_middle_Z. change (chr "0") with 48. change (chr "9") with 57.
    destruct Hc as [Hc | Hc].
    + replace (c <? 48) with true by (symmetry; apply Z.ltb_lt; lia).
      reflexivity.
    + replace (c >? 57) with true by (symmetry; apply Z.gtb_lt; lia).
      rewrite orb_true_r. reflexivity.
  - replace (length pre + S k)%nat
      with (S (length (pre ++ replicate k 57))).
    2:{ rewrite length_app, length_replicate. lia. }
    replace (pre ++ replicate (S k) 57 ++ rest)
      with ((pre ++ replicate k 57) ++ 57 :: rest).
    2:{ rewrite <- app_assoc. f_equal.
        rewrite replicate_S_end, <- app_assoc. reflexivity. }
    cbn [next_version]. rewrite nth_middle_Z.
    change (chr "0") with 48. change (chr "9") with 57.
    cbn [Z.ltb Z.gtb Z.eqb Z.compare Pos.compare Pos.compare_cont Pos.eqb
         orb negb].
    rewrite insert_middle_Z, length_app, length_replicate, <- app_assoc.
    apply IH. exact Hpre.
Qed.

Lemma decimal_snoc l c : decimal (l ++ [c]) = 10 * decimal l + digit_value c.
Proof. unfold decimal. rewrite fold_left_app. reflexivity. Qed.

Lemma digit_value_range c : 0 <= digit_value c <= 9.
Proof.
  unfold digit_value. change (chr "0") with 48. change (chr "9") with 57.
  destruct (c <? 48) eqn:L; [simpl; lia |].
  destruct (c >? 57) eqn:G; [simpl; lia |]. simpl.
  apply Z.ltb_ge in L. rewrite Z.gtb_ltb in G. apply Z.ltb_ge in G. lia.
Qed.

Lemma decimal_range l : 0 <= decimal l < 10 ^ Z.of_nat (length l).
Proof.
  induction l as [|c l IH] using rev_ind;
    [vm_compute; split; [discriminate | reflexivity] |].
  rewrite decimal_snoc, length_app. cbn [length].
  pose proof (digit_value_range c).
  replace (Z.of_nat (length l + 1)) with (Z.of_nat (length l) + 1) by lia.
  rewrite Z.pow_add_r by lia. change (10 ^ 1) with 10. lia.
Qed.

Lemma nth_lookup_Z (l : list Z) i :
  (i < length l)%nat -> l !! i = Some (nth i l 0).
Proof.
  revert i. induction l as [|x l IH]; intros [|i] H; simpl in *; try lia;
    [reflexivity | apply IH; lia].
Qed.

Lemma insert_middle_Z_end (l : list Z) x y :
  <[length l := y]> (l ++ [x]) = l ++ [y].
Proof. apply insert_middle_Z. Qed.

(** A new version keeps the length of the name and everything from [p]
    on, leaves no dot where there was none, and is one more in decimal. *)
Lemma next_version_spec p : forall l l',
  next_version l p = Some l' -> (p <= length l)%nat ->
  length l' = length l /\ drop p l' = drop p l
  /\ decimal (take p l') = decimal (take p l) + 1
  /\ (Forall (fun c => c <> chr ".") (take p l) ->
      Forall (fun c => c <> chr ".") (take p l')).
Proof.
  change (chr ".") with 46.
  induction p as [|p IH]; intros l l' E Hp; [discriminate |].
  cbn [next_version] in E. change (chr "0") with 48 in E.
  change (chr "9") with 57 in E.
  pose proof (nth_lookup_Z l p ltac:(lia)) as Hc.
  set (c := nth p l 0) in *.
  destruct (c <? 48) eqn:L; [discriminate |].
  destruct (c >? 57) eqn:G; [discriminate |]. cbn [orb] in E.
  apply Z.ltb_ge in L. rewrite Z.gtb_ltb in G. apply Z.ltb_ge in G.
  rewrite (take_S_r l p c Hc).
  destruct (c =? 57) eqn:N; cbn [negb] in E.
  - apply Z.eqb_eq in N.
    destruct (IH _ _ E) as (Hlen & Hdrop & Hdec & Hdot);
      [rewrite length_insert; lia |].
    rewrite length_insert in Hlen.
    rewrite take_insert_ge in Hdec, Hdot by lia.
    rewrite drop_insert_ge, Nat.sub_diag in Hdrop by lia.
    rewrite (drop_S l c p Hc) in Hdrop. cbn [insert list_insert] in Hdrop.
    assert (l' !! p = Some 48) as Hl'.
    { rewrite <- (Nat.add_0_r p), <- lookup_drop, Hdrop. reflexivity. }
    rewrite (take_S_r l' p 48 Hl'), !decimal_snoc, Hdec.
    split; [exact Hlen |]. split.
    + replace (S p) with (p + 1)%nat by lia.
      rewrite <- (drop_drop l' 1 p), Hdrop, <- (drop_drop l 1 p).
      rewrite (drop_S l c p Hc). reflexivity.
    + split.
      * unfold digit_value. rewrite N.
        change (chr "0") with 48. change (chr "9") with 57.
        cbn [Z.ltb Z.gtb Z.compare Pos.compare Pos.compare_cont orb].
        lia.
      * intros HF. apply Forall_app in HF as [HF _].
        apply Forall_app. split; [auto |]. repeat constructor. lia.
  - apply Z.eqb_neq in N. injection E as <-.
    assert (take (S p) (<[p := c + 1]> l) = take p l ++ [c + 1]) as Ht.
    { rewrite take_insert_lt by lia. rewrite (take_S_r l p c Hc).
      transitivity (<[length (take p l) := c + 1]> (take p l ++ [c]));
        [| apply insert_middle_Z_end].
      rewrite length_take. replace (p `min` length l)%nat with p by lia.
      reflexivity. }
    rewrite Ht, length_insert, drop_insert_lt, !decimal_snoc by lia.
    split; [reflexivity |]. split; [reflexivity |]. split.
    + unfold digit_value. change (chr "0") with 48. change (chr "9") with 57.
      replace (c <? 48) with false by (symmetry; apply Z.ltb_ge; lia).
      replace (c >? 57) with false
        by (symmetry; rewrite Z.gtb_ltb; apply Z.ltb_ge; lia).
      replace (c + 1 <? 48) with false by (symmetry; apply Z.ltb_ge; lia).
      replace (c + 1 >? 57) with false
        by (symmetry; rewrite Z.gtb_ltb; apply Z.ltb_ge; lia).
      cbn [orb]. lia.
    + intros HF. apply Forall_app in HF as [HF _].
      apply Forall_app. split; [exact HF |]. repeat constructor. lia.
Qed.

Lemma strchr_first c : forall pre post,
  Forall (fun x => x <> c) pre -> strchr (pre ++ c :: post) c = Some (length pre).
Proof.
  induction pre as [|x pre IH]; intros post HF; simpl.
  - rewrite Z.eqb_refl. reflexivity.
  - inversion HF as [|? ? Hx HF']; subst.
    replace (x =? c) with false by (symmetry; apply Z.eqb_neq; exact Hx).
    rewrite IH by exact HF'. reflexivity.
Qed.

Lemma strchr_some c : forall l p,
  strchr l c = Some p ->
  (p < length l)%nat /\ Forall (fun x => x <> c) (take p l)
  /\ drop p l = c :: drop (S p) l.
Proof.
  induction l as [|x l IH]; intros p E; simpl in E; [discriminate |].
  destruct (x =? c) eqn:X.
  - injection E as <-. apply Z.eqb_eq in X. subst x. simpl.
    repeat split; [lia | constructor].
  - destruct (strchr l c) as [q |] eqn:Eq; [| discriminate].
    injection E as <-. apply Z.eqb_neq in X.
    destruct (IH q eq_refl) as (Hq & HF & Hd). simpl.
    repeat split; [lia | constructor; assumption | exact Hd].
Qed.

(** What the search keeps true of the name it is at. *)
Lemma next_version_dot l p l' :
  strchr l (chr ".") = Some p -> next_version l p = Some l' ->
  strchr l' (chr ".") = Some p
  /\ length l' = length l /\ drop p l' = drop p l
  /\ decimal (take p l') = decimal (take p l) + 1.
Proof.
  intros Es En. destruct (strchr_some _ _ _ Es) as (Hp & HF & Hd).
  destruct (next_version_spec p l l' En ltac:(lia))
    as (Hlen & Hdrop & Hdec & Hdot).
  repeat split; try assumption.
  rewrite <- (take_drop p l'), Hdrop, Hd.
  assert (length (take p l') = p) as Hl by (rewrite length_take; lia).
  rewrite <- Hl at 3. apply strchr_first. apply Hdot. exact HF.
Qed.

Lemma find_free_finishes exists_ fuel : forall name p,
  strchr name (chr ".") = Some p ->
  10 ^ Z.of_nat p - decimal (take p name) <= Z.of_nat fuel ->
  find_free fuel exists_ name <> Searching.
Proof.
  induction fuel as [|fuel IH]; intros name p Es Hm.
  - exfalso. destruct (strchr_some _ _ _ Es) as (Hp & _).
    pose proof (decimal_range (take p name)) as Hr.
    rewrite length_take in Hr.
    replace (p `min` length name)%nat with p in Hr by lia. simpl in Hm. lia.
  - cbn [find_free]. destruct (exists_ name); [| discriminate].
    rewrite Es. destruct (next_version name p) as [name' |] eqn:En;
      [| discriminate].
    destruct (next_version_dot name p name' Es En) as (Es' & _ & _ & Hdec).
    apply (IH name' p Es'). lia.
Qed.

Lemma find_free_result exists_ fuel : forall name p n,
  strchr name (chr ".") = Some p ->
  find_free fuel exists_ name = Free n ->
  exists_ n = false /\ length n = length name /\ drop p n = drop p name
  /\ decimal (take p name) <= decimal (take p n)
  /\ (exists_ name = false -> n = name).
Proof.
  induction fuel as [|fuel IH]; intros name p n Es E; [discriminate |].
  cbn [find_free] in E. destruct (exists_ name) eqn:Ex.
  - rewrite Es in E. destruct (next_version name p) as [name' |] eqn:En;
      [| discriminate].
    destruct (next_version_dot name p name' Es En)
      as (Es' & Hlen & Hdrop & Hdec).
    destruct (IH name' p n Es' E) as (H1 & H2 & H3 & H4 & _).
    repeat split; try congruence; lia.
  - injection E as <-. repeat split; try assumption; try lia.
Qed.

(** X11: for a name whose first dot is at index p, createBinFile is done
    after trying at most 10^p names. When it succeeds, the name it opened
    did not exist on the card, has the length of binName and the same
    characters from the dot on, and is binName itself when that did not
    exist; an existing file is never opened for logging. *)
Theorem createBinFile_takes_free_name exists_ open_ preAllocate binName p :
  strchr binName (chr ".") = Some p ->
  let r := createBinFile (Z.to_nat (10 ^ Z.of_nat p)) exists_ open_
             preAllocate binName in
  r <> Searching
  /\ forall n, r = Free n ->
       exists_ n = false /\ open_ n = true /\ preAllocate n = true
       /\ length n = length binName /\ drop p n = drop p binName
       /\ (exists_ binName = false -> n = binName).
Proof.
  intros Es. cbv zeta. unfold createBinFile.
  pose proof (find_free_finishes exists_ (Z.to_nat (10 ^ Z.of_nat p))
                binName p Es) as Hfin.
  pose proof (decimal_range (take p binName)) as Hr.
  assert (0 <= 10 ^ Z.of_nat p) by (apply Z.pow_nonneg; lia).
  specialize (Hfin ltac:(lia)).
  destruct (find_free _ exists_ binName) as [n0 | msg |] eqn:E.
  - destruct (find_free_result _ _ _ _ _ Es E) as (H1 & H2 & H3 & _ & H5).
    split.
    + destruct (open_ n0); [destruct (preAllocate n0) |]; discriminate.
    + intros n En. destruct (open_ n0) eqn:Eo; [| discriminate].
      destruct (preAllocate n0) eqn:Ep; [| discriminate].
      cbn [negb] in En. injection En as <-. repeat split; assumption.
  - split; [discriminate |]. intros n En. discriminate.
  - congruence.
Qed.

(** ** serialReadLine *)

Lemma readLine_spec size : forall rx str ok buf,
  (length str < size)%nat ->
  Forall (fun c => chr " " <= c) str ->
  readLine size str rx = (ok, buf) ->
  (length buf <= size)%nat
  /\ (ok = true ->
      exists body rest,
        rx = body ++ rest /\ buf = str ++ body ++ [0]
        /\ Forall (fun c => chr " " <= c) body
        /\ match rest with [] => True | c :: _ => c < chr " " end)
  /\ (ok = false ->
      exists body rest,
        rx = body ++ rest /\ buf = str ++ body
        /\ Forall (fun c => chr " " <= c) body
        /\ length buf = size).
Proof.
  induction rx as [|c rx IH]; intros str ok buf Hn HF E; cbn [readLine] in E.
  - injection E as <- <-. rewrite length_app. cbn [length].
    split; [lia |]. split; [| discriminate].
    intros _. exists [], []. repeat split. constructor.
  - destruct (c <? chr " ") eqn:L.
    + injection E as <- <-. rewrite length_app. cbn [length].
      split; [lia |]. split; [| discriminate].
      intros _. exists [], (c :: rx). apply Z.ltb_lt in L.
      repeat split; [constructor | exact L].
    + apply Z.ltb_ge in L.
      destruct (size <=? length (str ++ [c]))%nat eqn:S.
      * injection E as <- <-. apply Nat.leb_le in S.
        rewrite length_app in *. cbn [length] in *.
        split; [lia |]. split; [discriminate |].
        intros _. exists [c], rx. repeat split; [| lia].
        repeat constructor. exact L.
      * apply Nat.leb_gt in S.
        destruct (IH (str ++ [c]) ok buf S) as (H1 & H2 & H3);
          [apply Forall_app; split; [exact HF | repeat constructor; exact L]
          | exact E |].
        split; [exact H1 |]. split.
        -- intros Hok. destruct (H2 Hok) as (body & rest & -> & -> & HB & HR).
           exists (c :: body), rest. rewrite <- app_assoc.
           repeat split; [constructor; assumption | exact HR].
        -- intros Hok. destruct (H3 Hok) as (body & rest & -> & -> & HB & HL).
           exists (c :: body), rest. rewrite <- app_assoc in *.
           repeat split; [constructor; assumption | exact HL].
Qed.

(** X12: for a buffer of at least one character, serialReadLine stores
    at most size characters. When it returns true the buffer holds the
    characters received up to the first one below ' ', or up to the first
    gap of 100 ms, followed by a terminating zero; when it returns false
    the buffer holds the first size characters received, none of them
    below ' ', and no terminating zero. *)
Theorem serialReadLine_stays_in_buffer size rx ok buf :
  (0 < size)%nat -> serialReadLine size rx = Line ok buf ->
  (length buf <= size)%nat
  /\ (ok = true ->
      exists body rest,
        rx = body ++ rest /\ buf = body ++ [0]
        /\ Forall (fun c => chr " " <= c) body
        /\ match rest with [] => True | c :: _ => c < chr " " end)
  /\ (ok = false ->
      exists rest,
        rx = buf ++ rest /\ Forall (fun c => chr " " <= c) buf
        /\ length buf = size).
Proof.
  intros Hs E. unfold serialReadLine in E.
  destruct rx as [|c rx]; [discriminate |].
  destruct (readLine size [] (c :: rx)) as [ok' buf'] eqn:Er.
  injection E as -> ->.
  destruct (readLine_spec size (c :: rx) [] ok buf Hs (Forall_nil_2 _) Er)
    as (H1 & H2 & H3).
  split; [exact H1 |]. split; [exact H2 |].
  intros Hok. destruct (H3 Hok) as (body & rest & Hrx & -> & HB & HL).
  exists rest. repeat split; assumption.
Qed.

(** * Concrete runs

    An ATmega328P build with 64 channels: a record is 128 bytes, the
    buffer holds 4 records and a write carries at most 4. *)

Definition demo_slots : list data_t := replicate 4 (mk_data (replicate 64 0)).

(** The answers of turn [k] with the clock exactly on time: channel [c]
    reads [100 * k + c]. *)
Definition demo_turn (k : Z) (busy : bool) (ret avail : Z) : input :=
  mk_input (2000 * k) [] (2000 * k + 1)
    (fun c => 100 * k + Z.of_nat c) (2000 * k + 9)
    busy (2000 * k + 10) ret (2000 * k + 50) avail.

Definition demo_start : state := logData_init 0 demo_slots.

(** Four turns with the card busy fill the buffer. *)
Definition demo_fill : list input :=
  [demo_turn 1 true 0 0; demo_turn 2 true 0 0;
   demo_turn 3 true 0 0; demo_turn 4 true 0 0].

Definition demo_full : state :=
  outcome_state (logLoop 64 128 ATmega328P 16 demo_fill demo_start).

(** A fifth busy turn starts a streak. *)
Definition demo_streak : state :=
  outcome_state (logLoop 64 128 ATmega328P 16
                   (demo_fill ++ [demo_turn 5 true 0 0]) demo_start).

(** A sixth turn in which the card is idle and takes the 512 bytes. *)
Definition demo_idle_turn : input := demo_turn 6 false 512 0.

Definition demo_before_write : state :=
  outcome_state
    (and_then (and_then (deadline demo_idle_turn demo_streak)
                 (push 64 128 ATmega328P 16 demo_idle_turn)) jitter).

(** The first turn with the card idle and the stop signal set. *)
Definition demo_stopped : state :=
  outcome_state
    (iteration 64 128 ATmega328P 16 (demo_turn 1 false 128 1) demo_start).

(** That turn between its jitter and its write. *)
Definition demo_before_stop : state :=
  outcome_state
    (and_then (and_then (deadline (demo_turn 1 false 128 1) demo_start)
                 (push 64 128 ATmega328P 16 (demo_turn 1 false 128 1)))
       jitter).

(** A card that stays busy for [n] turns. *)
Definition demo_stall (n : nat) : list input :=
  map (fun k => demo_turn (Z.of_nat k) true 0 0) (seq 1 n).

(** After 4099 busy turns the streak is at the ceiling. *)
Definition demo_stalled : state :=
  outcome_state (logLoop 64 128 ATmega328P 16 (demo_stall 4099) demo_start).

(** Turn 4100 after its deadline phase. *)
Definition demo_stalled_due : state :=
  outcome_state (deadline (demo_turn 4100 true 0 0) demo_stalled).

(** A turn whose first channel reads 40000: bit 15 of the sample is set. *)
Definition demo_high : nat -> Z := fun _ => 40000.

(** Four busy turns, a fifth and a sixth that find the buffer full, the
    sixth with the card idle and taking the 512 bytes, and a seventh that
    logs the marker of the streak. *)
Definition demo_mixed : list input :=
  demo_fill ++ [demo_turn 5 true 0 0; demo_idle_turn; demo_turn 7 true 0 0].

Definition demo_mixed_end : state :=
  outcome_state (logData 64 128 ATmega328P 16 0 demo_slots demo_mixed).

(** Three turns with the card idle and taking each record. *)
Definition demo_idle : list input :=
  [demo_turn 1 false 128 0; demo_turn 2 false 128 0; demo_turn 3 false 128 0].

Definition demo_idle_end : state :=
  outcome_state (logData 64 128 ATmega328P 16 0 demo_slots demo_idle).

(** The first turn with the card idle and taking nothing. *)
Definition demo_refused_turn : input := demo_turn 1 false 0 0.

Definition demo_before_refusal : state :=
  outcome_state
    (and_then (and_then (deadline demo_refused_turn demo_start)
                 (push 64 128 ATmega328P 16 demo_refused_turn)) jitter).

(** A card that holds the first two versions of the log file. *)
Definition name_of (s : string) : list Z :=
  map chr (String.list_ascii_of_string s).

Definition demo_card : list (list Z) :=
  [name_of "ExFatLogger00.bin"; name_of "ExFatLogger01.bin"].

Definition demo_exists (n : list Z) : bool := bool_decide (n ∈ demo_card).

Definition demo_created : found :=
  createBinFile (Z.to_nat (10 ^ Z.of_nat 13)) demo_exists
    (fun _ => true) (fun _ => true) binName0.

(** "ab" followed by a carriage return. *)
Definition demo_rx : list Z := [97; 98; 13].

(** A file of four samples and a marker for three turns, with 72 bytes
    more: the first read returns four records, the second the fifth
    record and those bytes. *)
Definition demo_sample (k : Z) : data_t :=
  mk_data (map (fun c => 100 * k + Z.of_nat c) (seq 0 64)).

Definition demo_marker : data_t := mk_data (0x8003 :: replicate 63 0).

Definition demo_file : list data_t :=
  [demo_sample 1; demo_sample 2; demo_marker; demo_sample 5; demo_sample 6].

Definition demo_setup : csv_setup := mk_csv_setup true binName0 true 0.

Definition demo_chunks : list csv_input :=
  [mk_csv_input 0 712 512 (take 4 demo_file) 1500 512 712 1500 0;
   mk_csv_input 0 200 200 (drop 4 demo_file ++ drop 1 (take 4 demo_file))
     1600 712 712 1600 0].

Definition demo_end_of_file : csv_input := mk_csv_input 0 0 0 [] 0 0 0 0 0.



Definition demo_printer : printer := mk_printer 41 [].

Lemma demo_start_reachable : reachable 64 128 ATmega328P 16 demo_start.
Proof. apply reach_init; [reflexivity | repeat constructor]. Qed.

Lemma demo_full_reachable : reachable 64 128 ATmega328P 16 demo_full.
Proof.
  apply (reachable_logLoop 64 128 ATmega328P 16 demo_fill demo_start);
    [exact demo_start_reachable | vm_compute; reflexivity].
Qed.

Lemma demo_streak_reachable : reachable 64 128 ATmega328P 16 demo_streak.
Proof.
  apply (reachable_logLoop 64 128 ATmega328P 16
           (demo_fill ++ [demo_turn 5 true 0 0]) demo_start);
    [exact demo_start_reachable | vm_compute; reflexivity].
Qed.

(** The marker the loop logs after a streak of two still holds, in its
    channels 1 and 2, what the converter read in turn 1. *)
Example loop_marker_holds_readings :
  omap (fun e => match e with
                 | EvLogRecord ov r => Some (ov, take 3 (adc r))
                 | _ => None
                 end)
       (trace (outcome_state
                 (logLoop 64 128 ATmega328P 16
                    [demo_turn 6 false 512 0; demo_turn 7 true 0 0]
                    demo_streak)))
  = [(0, [100; 101; 102]); (0, [200; 201; 202]); (0, [300; 301; 302]);
     (0, [400; 401; 402]); (2, [0x8003; 101; 102])].
Proof. vm_compute. reflexivity. Qed.

(** ** C1 *)

Lemma marker_decodes_to_successor_witness :
  adc (mk_data [0; 0; 0; 0]) <> [] /\ 1 <= 5 <= 0x7FFE
  /\ isOverrun (logRecord 4 (mk_data [0; 0; 0; 0]) 5 (fun _ => 0)) = true
  /\ overrunCount (logRecord 4 (mk_data [0; 0; 0; 0]) 5 (fun _ => 0)) = 5 + 1
  /\ forall nr,
       printRecord 4 nr (Some (logRecord 4 (mk_data [0; 0; 0; 0]) 5
                                 (fun _ => 0)))
       = (u32 (nr + (5 + 1)), LineOverruns (5 + 1)).
Proof.
  split; [discriminate |]. split; [lia |].
  apply (marker_decodes_to_successor 4); [discriminate | lia].
Defined.

(** Decoding the marker made for a streak of 5 does not give 5. *)
Lemma marker_decode_not_original :
  overrunCount (logRecord 4 (mk_data [0; 0; 0; 0]) 5 (fun _ => 0)) <> 5.
Proof. vm_compute. discriminate. Qed.

(** ** C6 *)

Lemma marker_sets_first_channel_only_witness :
  3 <> 0
  /\ adc (logRecord 4 (mk_data [11; 12; 13; 14]) 3 (fun _ => 9))
     = <[0%nat := u16 (Z.lor 0x8000 (u16 (3 + 1)))]> [11; 12; 13; 14]
  /\ (forall k, k <> 0%nat ->
        adc_at (logRecord 4 (mk_data [11; 12; 13; 14]) 3 (fun _ => 9)) k
        = adc_at (mk_data [11; 12; 13; 14]) k)
  /\ (forall rd', logRecord 4 (mk_data [11; 12; 13; 14]) 3 rd'
                  = logRecord 4 (mk_data [11; 12; 13; 14]) 3 (fun _ => 9)).
Proof.
  split; [discriminate |].
  apply (marker_sets_first_channel_only 4). discriminate.
Defined.

(** Two markers for the same streak, made in slots that last held the
    readings 7 and the readings 9, are different records. *)
Lemma marker_depends_on_old_readings :
  logRecord 4 (logRecord 4 (mk_data [0; 0; 0; 0]) 0 (fun _ => 7)) 1
    (fun _ => 0)
  <> logRecord 4 (logRecord 4 (mk_data [0; 0; 0; 0]) 0 (fun _ => 9)) 1
       (fun _ => 0).
Proof. vm_compute. discriminate. Qed.

(** ** C2 *)

Lemma ring_buffer_invariant_witness :
  0 < FIFO_DIM 128 ATmega328P /\ 16 <= 16
  /\ reachable 64 128 ATmega328P 16 demo_full
  /\ 0 <= fifoCount demo_full <= FIFO_DIM 128 ATmega328P
  /\ 0 <= fifoHead demo_full < FIFO_DIM 128 ATmega328P
  /\ 0 <= fifoTail demo_full < FIFO_DIM 128 ATmega328P
  /\ fifoHead demo_full
     = (fifoTail demo_full + fifoCount demo_full) mod FIFO_DIM 128 ATmega328P
  /\ logged (trace demo_full)
     = written (trace demo_full) ++ buffered 128 ATmega328P demo_full
  /\ (fifoCount demo_full = 0 <-> is_empty demo_full)
  /\ (fifoCount demo_full = FIFO_DIM 128 ATmega328P
      <-> is_full 128 ATmega328P demo_full).
Proof.
  split; [reflexivity |]. split; [lia |].
  split; [exact demo_full_reachable |].
  apply (ring_buffer_invariant 64 128 ATmega328P 16)
    with (s := demo_full) (i := demo_turn 5 true 0 0).
  - reflexivity.
  - lia.
  - exact demo_full_reachable.
  - left. reflexivity.
Defined.

(** ** C3 *)

Lemma write_run_bounded_witness :
  0 < FIFO_DIM 128 ATmega328P /\ 16 <= 16
  /\ reachable 64 128 ATmega328P 16 demo_streak
  /\ isBusy demo_idle_turn = false
  /\ and_then (and_then (deadline demo_idle_turn demo_streak)
                 (push 64 128 ATmega328P 16 demo_idle_turn)) jitter
     = Continue demo_before_write
  /\ 0 <= write_nw 128 ATmega328P 16 demo_before_write
       <= fifoCount demo_before_write
  /\ fifoTail demo_before_write + write_nw 128 ATmega328P 16 demo_before_write
     <= FIFO_DIM 128 ATmega328P
  /\ write_nw 128 ATmega328P 16 demo_before_write * 128 <= 512
  /\ write_span 128 demo_before_write
       (usize 16 (write_nw 128 ATmega328P 16 demo_before_write
                  * 128))
     = take (Z.to_nat (write_nw 128 ATmega328P 16 demo_before_write))
         (buffered 128 ATmega328P demo_before_write)
  /\ forall s4,
       iteration 64 128 ATmega328P 16 demo_idle_turn demo_streak = Continue s4
       \/ iteration 64 128 ATmega328P 16 demo_idle_turn demo_streak = Break s4 ->
       fifoCount s4
       = fifoCount demo_before_write
         - write_nw 128 ATmega328P 16 demo_before_write
       /\ buffered 128 ATmega328P s4
          = drop (Z.to_nat (write_nw 128 ATmega328P 16 demo_before_write))
              (buffered 128 ATmega328P demo_before_write)
       /\ written (trace s4)
          = written (trace demo_before_write)
            ++ take (Z.to_nat (write_nw 128 ATmega328P 16 demo_before_write))
                 (buffered 128 ATmega328P demo_before_write).
Proof.
  split; [reflexivity |]. split; [lia |].
  split; [exact demo_streak_reachable |]. split; [reflexivity |].
  split; [vm_compute; reflexivity |].
  apply (write_run_bounded 64 128 ATmega328P 16)
    with (s := demo_streak) (i := demo_idle_turn).
  - reflexivity.
  - lia.
  - exact demo_streak_reachable.
  - reflexivity.
  - vm_compute. reflexivity.
Defined.

(** ** C4 *)

Lemma due_time_after_turns_witness :
  logTime demo_streak = u32 (0 + 5 * LOG_INTERVAL_USEC).
Proof.
  destruct (due_time_after_turns 64 128 ATmega328P 16 0 demo_slots
              (demo_fill ++ [demo_turn 5 true 0 0])) as (_ & H & _).
  apply (H demo_streak). vm_compute. reflexivity.
Defined.

(** ** C5 *)

Lemma full_push_refused_witness :
  fifoCount demo_full = FIFO_DIM 128 ATmega328P
  /\ same_buffer demo_full
       (outcome_state (push 64 128 ATmega328P 16 (demo_turn 5 true 0 0) demo_full))
  /\ logged (trace (outcome_state
                      (push 64 128 ATmega328P 16 (demo_turn 5 true 0 0)
                         demo_full)))
     = logged (trace demo_full).
Proof.
  split; [vm_compute; reflexivity |].
  destruct (full_push_refused 64 128 ATmega328P 16 (demo_turn 5 true 0 0)
              demo_full) as (HB & _ & HL & _).
  - vm_compute. reflexivity.
  - split; [exact HB | exact HL].
Defined.

(** ** C7 *)

(** With the card busy and the stop signal set, the first turn neither
    polls the signal nor leaves the loop. *)
Lemma busy_turn_ignores_stop :
  available (demo_turn 1 true 0 1) <> 0
  /\ polls (trace (outcome_state
                     (iteration 64 128 ATmega328P 16 (demo_turn 1 true 0 1)
                        demo_start))) = 0%nat
  /\ exists s',
       iteration 64 128 ATmega328P 16 (demo_turn 1 true 0 1) demo_start
       = Continue s'.
Proof.
  split; [discriminate |]. split; [vm_compute; reflexivity |].
  eexists. vm_compute. reflexivity.
Qed.

Lemma stop_polled_after_idle_write_witness :
  and_then (and_then (deadline (demo_turn 1 false 128 1) demo_start)
              (push 64 128 ATmega328P 16 (demo_turn 1 false 128 1))) jitter
  = Continue demo_before_stop
  /\ isBusy (demo_turn 1 false 128 1) = false
  /\ usize 16 (write_nw 128 ATmega328P 16 demo_before_stop * 128)
     = usize 16 (write_ret (demo_turn 1 false 128 1))
  /\ available (demo_turn 1 false 128 1) <> 0
  /\ (forall rest,
        logLoop 64 128 ATmega328P 16 (demo_turn 1 false 128 1 :: rest)
          demo_start
        = Break demo_stopped)
  /\ polls (trace demo_stopped) = S (polls (trace demo_start))
  /\ writes (trace demo_stopped) = S (writes (trace demo_start))
  /\ last (trace demo_stopped)
     = Some (EvAvailable (available (demo_turn 1 false 128 1))).
Proof.
  assert (and_then
            (and_then (deadline (demo_turn 1 false 128 1) demo_start)
               (push 64 128 ATmega328P 16 (demo_turn 1 false 128 1))) jitter
          = Continue demo_before_stop) as E by (vm_compute; reflexivity).
  assert (usize 16 (write_nw 128 ATmega328P 16 demo_before_stop * 128)
          = usize 16 (write_ret (demo_turn 1 false 128 1)))
    as Hr by (vm_compute; reflexivity).
  assert (available (demo_turn 1 false 128 1) <> 0) as A by discriminate.
  split; [exact E |]. split; [reflexivity |]. split; [exact Hr |].
  split; [exact A |].
  destruct (stop_polled_after_idle_write 64 128 ATmega328P 16
              (demo_turn 1 false 128 1) demo_start) as [H _].
  destruct (H demo_before_stop E eq_refl Hr)
    as (s' & Ho & HB & _ & Htr & Hp & Hw).
  assert (s' = demo_stopped) as <-.
  { unfold demo_stopped. rewrite Ho. reflexivity. }
  split; [exact (HB A) |]. split; [exact Hp |].
  split; [exact Hw |]. rewrite Htr. apply last_snoc.
Defined.

(** ** C8 *)

Lemma overrun_ceiling_witness :
  deadline (demo_turn 4100 true 0 0) demo_stalled = Continue demo_stalled_due
  /\ fifoCount demo_stalled = FIFO_DIM 128 ATmega328P
  /\ 0xFFF < u16 (overrun demo_stalled + 1)
  /\ exists s',
       (forall rest,
          logLoop 64 128 ATmega328P 16 (demo_turn 4100 true 0 0 :: rest)
            demo_stalled
          = Halted "too many overruns" s')
       /\ overrun s' = u16 (overrun demo_stalled + 1)
       /\ logged (trace s') = logged (trace demo_stalled)
       /\ writes (trace s') = writes (trace demo_stalled).
Proof.
  assert (deadline (demo_turn 4100 true 0 0) demo_stalled
          = Continue demo_stalled_due) as Ed by (vm_compute; reflexivity).
  assert (fifoCount demo_stalled = FIFO_DIM 128 ATmega328P)
    as Hc by (vm_compute; reflexivity).
  assert (0xFFF < u16 (overrun demo_stalled + 1))
    as Hs by (vm_compute; reflexivity).
  split; [exact Ed |]. split; [exact Hc |]. split; [exact Hs |].
  destruct (overrun_ceiling 64 128 ATmega328P 16 (demo_turn 4100 true 0 0)
              demo_stalled demo_stalled_due Ed Hc) as [H _].
  exact (H Hs).
Defined.

(** A card busy for 4100 turns: 4 records are logged, 4096 turns overrun,
    and the loop halts without a single write. *)
Example stall_saturates :
  match logLoop 64 128 ATmega328P 16 (demo_stall 4100) demo_start with
  | Halted msg s =>
      Some (msg, overrun s, totalOverrun s,
            length (logged (trace s)), writes (trace s))
  | _ => None
  end
  = Some ("too many overruns", 0x1000, 4096, 4%nat, 0%nat).
Proof. vm_compute. reflexivity. Qed.

(** One turn less and the loop is still running, the streak at the
    ceiling. *)
Example stall_at_ceiling :
  match logLoop 64 128 ATmega328P 16 (demo_stall 4099) demo_start with
  | Continue s => Some (overrun s, fifoCount s)
  | _ => None
  end
  = Some (0xFFF, 4).
Proof. vm_compute. reflexivity. Qed.

(** ** C9 *)

Lemma deadline_missed_or_awaited_witness :
  0 < i32 (since (micros_due (demo_turn 2 true 0 0))
             (u32 (logTime demo_start + LOG_INTERVAL_USEC)))
  /\ exists s',
       (forall rest,
          logLoop 64 128 ATmega328P 16 (demo_turn 2 true 0 0 :: rest) demo_start
          = Halted "Rate too fast" s')
       /\ same_buffer demo_start s' /\ quiet demo_start s'.
Proof.
  assert (0 < i32 (since (micros_due (demo_turn 2 true 0 0))
                     (u32 (logTime demo_start + LOG_INTERVAL_USEC))))
    as G by (vm_compute; reflexivity).
  split; [exact G |].
  destruct (deadline_missed_or_awaited 64 128 ATmega328P 16
              (demo_turn 2 true 0 0) demo_start) as [H _].
  exact (H G).
Defined.

(** ** C10 *)

Lemma loop_marker_tagged_witness :
  0 < FIFO_DIM 128 ATmega328P /\ 16 <= 16
  /\ reachable 64 128 ATmega328P 16 demo_streak /\ overrun demo_streak <> 0
  /\ (0 < 64)%nat
  /\ overrun demo_streak + 1 <= 0x1000
  /\ adc_at (logRecord 64 (slot_at (fifoData demo_streak)
                             (fifoHead demo_streak))
               (overrun demo_streak) (fun _ => 0)) 0
     = Z.lor 0x8000 (overrun demo_streak + 1)
  /\ Z.land (adc_at (logRecord 64 (slot_at (fifoData demo_streak)
                                     (fifoHead demo_streak))
                       (overrun demo_streak) (fun _ => 0)) 0) 0x8000
     = 0x8000
  /\ isOverrun (logRecord 64 (slot_at (fifoData demo_streak)
                                (fifoHead demo_streak))
                  (overrun demo_streak) (fun _ => 0)) = true
  /\ overrunCount (logRecord 64 (slot_at (fifoData demo_streak)
                                   (fifoHead demo_streak))
                     (overrun demo_streak) (fun _ => 0))
     = overrun demo_streak + 1
  /\ forall nr,
       printRecord 64 nr
         (Some (logRecord 64 (slot_at (fifoData demo_streak)
                                (fifoHead demo_streak))
                  (overrun demo_streak) (fun _ => 0)))
       = (u32 (nr + (overrun demo_streak + 1)),
          LineOverruns (overrun demo_streak + 1)).
Proof.
  split; [reflexivity |]. split; [lia |].
  split; [exact demo_streak_reachable |].
  split; [vm_compute; discriminate |].
  split; [lia |].
  apply (loop_marker_tagged 64 128 ATmega328P 16 ltac:(reflexivity) ltac:(lia)
           demo_streak (fun _ => 0) ltac:(lia) demo_streak_reachable).
  vm_compute. discriminate.
Defined.

(** * Witnesses of the further properties *)

Lemma sample_overwrites_slot_witness :
  length (adc (mk_data (replicate 64 0))) = 64%nat
  /\ adc (logRecord 64 (mk_data (replicate 64 0)) 0 (analogRead demo_idle_turn))
     = map (fun k => u16 (analogRead demo_idle_turn k)) (seq 0 64).
Proof.
  split; [reflexivity |].
  apply (sample_overwrites_slot 64 (mk_data (replicate 64 0))
           (analogRead demo_idle_turn)).
  reflexivity.
Defined.

Lemma sample_printed_as_data_witness :
  length (adc (mk_data (replicate 64 0))) = 64%nat
  /\ (0 < 64)%nat
  /\ u16 (analogRead demo_idle_turn 0%nat) < 0x8000
  /\ printRecord 64 7
       (Some (logRecord 64 (mk_data (replicate 64 0)) 0
                (analogRead demo_idle_turn)))
     = (u32 (7 + 1),
        LineData 7 (map (fun k => u16 (analogRead demo_idle_turn k))
                      (seq 0 64))).
Proof.
  split; [reflexivity |]. split; [lia |].
  split; [vm_compute; reflexivity |].
  apply (sample_printed_as_data 64 (mk_data (replicate 64 0))
           (analogRead demo_idle_turn) 7).
  - reflexivity.
  - lia.
  - vm_compute. reflexivity.
Defined.

Lemma sample_with_high_bit_read_as_marker_witness :
  length (adc (mk_data (replicate 64 0))) = 64%nat
  /\ (0 < 64)%nat
  /\ 0x8000 <= u16 (demo_high 0%nat)
  /\ printRecord 64 7
       (Some (logRecord 64 (mk_data (replicate 64 0)) 0 demo_high))
     = (u32 (7 + (u16 (demo_high 0%nat) - 0x8000)),
        LineOverruns (u16 (demo_high 0%nat) - 0x8000)).
Proof.
  split; [reflexivity |]. split; [lia |].
  split; [vm_compute; discriminate |].
  apply (sample_with_high_bit_read_as_marker 64 (mk_data (replicate 64 0))
           demo_high 7).
  - reflexivity.
  - lia.
  - vm_compute. discriminate.
Defined.

Lemma demo_slots_sized :
  Forall (fun d : data_t => length (adc d) = 64%nat) demo_slots.
Proof. repeat constructor. Qed.

Lemma demo_mixed_untagged :
  Forall (fun i : input => u16 (analogRead i 0%nat) < 0x8000) demo_mixed.
Proof. repeat (constructor; [vm_compute; reflexivity |]). constructor. Qed.

Lemma demo_mixed_runs :
  logData 64 128 ATmega328P 16 0 demo_slots demo_mixed
  = Continue demo_mixed_end.
Proof. vm_compute. reflexivity. Qed.

Lemma record_numbers_count_turns_witness :
  0 < FIFO_DIM 128 ATmega328P /\ 16 <= 16
  /\ Z.of_nat (length demo_slots) = FIFO_DIM 128 ATmega328P
  /\ Forall (fun d : data_t => length (adc d) = 64%nat) demo_slots
  /\ (0 < 64)%nat
  /\ Forall (fun i : input => u16 (analogRead i 0%nat) < 0x8000) demo_mixed
  /\ logData 64 128 ATmega328P 16 0 demo_slots demo_mixed
     = Continue demo_mixed_end
  /\ tally weight (logged (trace demo_mixed_end)) + overrun demo_mixed_end
     = Z.of_nat (length demo_mixed)
  /\ fst (printRecords 64 (fst (printRecord 64 0 None))
            (logged (trace demo_mixed_end)))
     = u32 (Z.of_nat (length demo_mixed) - overrun demo_mixed_end).
Proof.
  split; [reflexivity |]. split; [lia |]. split; [reflexivity |].
  split; [exact demo_slots_sized |]. split; [lia |].
  split; [exact demo_mixed_untagged |]. split; [exact demo_mixed_runs |].
  apply (record_numbers_count_turns 64 128 ATmega328P 16
           ltac:(reflexivity) ltac:(lia) 0 demo_slots demo_mixed
           demo_mixed_end ltac:(reflexivity) demo_slots_sized ltac:(lia)
           demo_mixed_untagged demo_mixed_runs).
Defined.

Lemma total_overrun_matches_markers_witness :
  0 < FIFO_DIM 128 ATmega328P /\ 16 <= 16
  /\ Z.of_nat (length demo_slots) = FIFO_DIM 128 ATmega328P
  /\ Forall (fun d : data_t => length (adc d) = 64%nat) demo_slots
  /\ (0 < 64)%nat
  /\ Forall (fun i : input => u16 (analogRead i 0%nat) < 0x8000) demo_mixed
  /\ logData 64 128 ATmega328P 16 0 demo_slots demo_mixed
     = Continue demo_mixed_end
  /\ 0 <= totalOverrun demo_mixed_end < 2 ^ 32
  /\ totalOverrun demo_mixed_end
     = u32 (tally lost (logged (trace demo_mixed_end))
            + overrun demo_mixed_end).
Proof.
  split; [reflexivity |]. split; [lia |]. split; [reflexivity |].
  split; [exact demo_slots_sized |]. split; [lia |].
  split; [exact demo_mixed_untagged |]. split; [exact demo_mixed_runs |].
  apply (total_overrun_matches_markers 64 128 ATmega328P 16
           ltac:(reflexivity) ltac:(lia) 0 demo_slots demo_mixed
           demo_mixed_end ltac:(reflexivity) demo_slots_sized ltac:(lia)
           demo_mixed_untagged demo_mixed_runs).
Defined.

(** In that run four samples and one marker for three turns are logged,
    two turns are counted as lost and the record number ends at 7. *)
Example mixed_run_totals :
  length (logged (trace demo_mixed_end)) = 5%nat
  /\ tally weight (logged (trace demo_mixed_end)) = 7
  /\ tally lost (logged (trace demo_mixed_end)) = 2
  /\ totalOverrun demo_mixed_end = 2
  /\ overrun demo_mixed_end = 0.
Proof. vm_compute. repeat split. Qed.

Lemma maxima_bound_observations_witness :
  0 < FIFO_DIM 128 ATmega328P /\ 16 <= 16
  /\ reachable 64 128 ATmega328P 16 demo_full
  /\ iteration 64 128 ATmega328P 16 (demo_turn 5 true 0 0) demo_full
     = Continue demo_streak
  /\ 0 <= delta demo_streak <= maxDelta demo_streak
  /\ maxDelta demo_full <= maxDelta demo_streak
  /\ maxOverrun demo_full <= maxOverrun demo_streak <= 4095
  /\ (fifoCount demo_full < FIFO_DIM 128 ATmega328P
      -> overrun demo_full <= maxOverrun demo_streak)
  /\ maxFifoCount demo_full <= maxFifoCount demo_streak
     <= FIFO_DIM 128 ATmega328P
  /\ (isBusy (demo_turn 5 true 0 0) = false
      -> fifoCount demo_streak <= maxFifoCount demo_streak).
Proof.
  split; [reflexivity |]. split; [lia |].
  split; [exact demo_full_reachable |].
  assert (iteration 64 128 ATmega328P 16 (demo_turn 5 true 0 0) demo_full
          = Continue demo_streak) as E by (vm_compute; reflexivity).
  split; [exact E |].
  apply (maxima_bound_observations 64 128 ATmega328P 16
           ltac:(reflexivity) ltac:(lia) (demo_turn 5 true 0 0) demo_full
           demo_streak demo_full_reachable (or_introl E)).
Defined.

Lemma demo_idle_runs :
  logData 64 128 ATmega328P 16 0 demo_slots demo_idle = Continue demo_idle_end.
Proof. vm_compute. reflexivity. Qed.

Lemma idle_card_keeps_up_witness :
  0 < FIFO_DIM 128 ATmega328P /\ 16 <= 16
  /\ Z.of_nat (length demo_slots) = FIFO_DIM 128 ATmega328P
  /\ Forall (fun d : data_t => length (adc d) = 64%nat) demo_slots
  /\ 128 <= 512
  /\ Forall (fun i : input => isBusy i = false) demo_idle
  /\ logData 64 128 ATmega328P 16 0 demo_slots demo_idle
     = Continue demo_idle_end
  /\ totalOverrun demo_idle_end = 0
  /\ overrun demo_idle_end = 0
  /\ fifoCount demo_idle_end = 0
  /\ maxFifoCount demo_idle_end <= 1
  /\ written (trace demo_idle_end) = logged (trace demo_idle_end)
  /\ length (logged (trace demo_idle_end))
     = turns 64 128 ATmega328P 16 demo_idle (logData_init 0 demo_slots).
Proof.
  split; [reflexivity |]. split; [lia |]. split; [reflexivity |].
  split; [exact demo_slots_sized |]. split; [lia |].
  assert (Forall (fun i : input => isBusy i = false) demo_idle)
    as Hi by (repeat constructor).
  split; [exact Hi |]. split; [exact demo_idle_runs |].
  apply (idle_card_keeps_up 64 128 ATmega328P 16
           ltac:(reflexivity) ltac:(lia) 0 demo_slots demo_idle
           demo_idle_end ltac:(reflexivity) demo_slots_sized ltac:(lia)
           Hi (or_introl demo_idle_runs)).
Defined.

Lemma demo_streak_runs :
  logData 64 128 ATmega328P 16 0 demo_slots
    (demo_fill ++ [demo_turn 5 true 0 0])
  = Continue demo_streak.
Proof. vm_compute. reflexivity. Qed.

Lemma busy_card_fills_then_overruns_witness :
  0 < FIFO_DIM 128 ATmega328P /\ 16 <= 16
  /\ Z.of_nat (length demo_slots) = FIFO_DIM 128 ATmega328P
  /\ Forall (fun d : data_t => length (adc d) = 64%nat) demo_slots
  /\ Forall (fun i : input => isBusy i = true)
       (demo_fill ++ [demo_turn 5 true 0 0])
  /\ logData 64 128 ATmega328P 16 0 demo_slots
       (demo_fill ++ [demo_turn 5 true 0 0])
     = Continue demo_streak
  /\ fifoCount demo_streak
     = Z.min (Z.of_nat (length (demo_fill ++ [demo_turn 5 true 0 0])))
         (FIFO_DIM 128 ATmega328P)
  /\ overrun demo_streak
     = Z.max 0 (Z.of_nat (length (demo_fill ++ [demo_turn 5 true 0 0]))
                - FIFO_DIM 128 ATmega328P)
  /\ totalOverrun demo_streak
     = Z.max 0 (Z.of_nat (length (demo_fill ++ [demo_turn 5 true 0 0]))
                - FIFO_DIM 128 ATmega328P)
  /\ written (trace demo_streak) = []
  /\ Z.of_nat (length (logged (trace demo_streak)))
     = Z.min (Z.of_nat (length (demo_fill ++ [demo_turn 5 true 0 0])))
         (FIFO_DIM 128 ATmega328P).
Proof.
  split; [reflexivity |]. split; [lia |]. split; [reflexivity |].
  split; [exact demo_slots_sized |].
  assert (Forall (fun i : input => isBusy i = true)
            (demo_fill ++ [demo_turn 5 true 0 0]))
    as Hb by (repeat constructor).
  split; [exact Hb |]. split; [exact demo_streak_runs |].
  apply (busy_card_fills_then_overruns 64 128 ATmega328P 16
           ltac:(reflexivity) ltac:(lia) 0 demo_slots
           (demo_fill ++ [demo_turn 5 true 0 0]) demo_streak
           ltac:(reflexivity) demo_slots_sized Hb demo_streak_runs).
Defined.

Lemma short_write_halts_witness :
  and_then (and_then (deadline demo_refused_turn demo_start)
              (push 64 128 ATmega328P 16 demo_refused_turn)) jitter
  = Continue demo_before_refusal
  /\ isBusy demo_refused_turn = false
  /\ usize 16 (write_nw 128 ATmega328P 16 demo_before_refusal * 128)
     <> usize 16 (write_ret demo_refused_turn)
  /\ exists s',
       (forall rest,
          logLoop 64 128 ATmega328P 16 (demo_refused_turn :: rest) demo_start
          = Halted "write binFile failed" s')
       /\ same_buffer demo_before_refusal s'
       /\ written (trace s') = written (trace demo_before_refusal)
       /\ writes (trace s') = S (writes (trace demo_before_refusal))
       /\ polls (trace s') = polls (trace demo_before_refusal).
Proof.
  assert (and_then (and_then (deadline demo_refused_turn demo_start)
                      (push 64 128 ATmega328P 16 demo_refused_turn)) jitter
          = Continue demo_before_refusal) as E by (vm_compute; reflexivity).
  assert (usize 16 (write_nw 128 ATmega328P 16 demo_before_refusal * 128)
          <> usize 16 (write_ret demo_refused_turn))
    as Hr by (vm_compute; discriminate).
  split; [exact E |]. split; [reflexivity |]. split; [exact Hr |].
  exact (short_write_halts 64 128 ATmega328P 16 demo_refused_turn demo_start
           demo_before_refusal E eq_refl Hr).
Defined.

Lemma next_version_carries_witness :
  chr "0" <= chr "0" < chr "9"
  /\ next_version
       (name_of "ExFatLogger" ++ chr "0" :: replicate 1 (chr "9")
        ++ name_of ".bin")
       (length (name_of "ExFatLogger") + 1 + 1)
     = Some (name_of "ExFatLogger" ++ (chr "0" + 1)
             :: replicate 1 (chr "0") ++ name_of ".bin").
Proof.
  assert (chr "0" <= chr "0" < chr "9") as Hd
    by (vm_compute; split; [discriminate | reflexivity]).
  split; [exact Hd |].
  exact (next_version_carries 1 (name_of "ExFatLogger") (chr "0")
           (name_of ".bin") Hd).
Defined.

(** ExFatLogger09.bin is followed by ExFatLogger10.bin. *)
Example version_09_to_10 :
  next_version (name_of "ExFatLogger09.bin") 13
  = Some (name_of "ExFatLogger10.bin").
Proof. vm_compute. reflexivity. Qed.

Lemma next_version_exhausted_witness :
  (name_of "ExFatLogger" = []
   \/ exists pre' c,
        name_of "ExFatLogger" = pre' ++ [c] /\ (c < chr "0" \/ chr "9" < c))
  /\ next_version
       (name_of "ExFatLogger" ++ replicate 2 (chr "9") ++ name_of ".bin")
       (length (name_of "ExFatLogger") + 2)
     = None.
Proof.
  assert (name_of "ExFatLogger" = []
          \/ exists pre' c,
               name_of "ExFatLogger" = pre' ++ [c]
               /\ (c < chr "0" \/ chr "9" < c)) as Hp.
  { right. exists (name_of "ExFatLogge"), (chr "r").
    split; [reflexivity | right; vm_compute; reflexivity]. }
  split; [exact Hp |].
  exact (next_version_exhausted 2 (name_of "ExFatLogger") (name_of ".bin") Hp).
Defined.

Lemma createBinFile_takes_free_name_witness :
  strchr binName0 (chr ".") = Some 13%nat
  /\ demo_created <> Searching
  /\ forall n,
       demo_created = Free n
       -> demo_exists n = false
          /\ true = true /\ true = true
          /\ length n = length binName0
          /\ drop 13 n = drop 13 binName0
          /\ (demo_exists binName0 = false -> n = binName0).
Proof.
  split; [reflexivity |].
  exact (createBinFile_takes_free_name demo_exists (fun _ => true)
           (fun _ => true) binName0 13 eq_refl).
Defined.

(** With versions 00 and 01 on the card the log goes to version 02. *)
Example third_version_created :
  createBinFile 3 demo_exists (fun _ => true) (fun _ => true) binName0
  = Free (name_of "ExFatLogger02.bin").
Proof. vm_compute. reflexivity. Qed.

Lemma serialReadLine_stays_in_buffer_witness :
  (0 < 4)%nat
  /\ serialReadLine 4 demo_rx = Line true [97; 98; 0]
  /\ (length [97; 98; 0] <= 4)%nat
  /\ (true = true
      -> exists body rest : list Z,
           demo_rx = body ++ rest
           /\ [97; 98; 0] = body ++ [0]
           /\ Forall (fun c => chr " " <= c) body
           /\ match rest with [] => True | c :: _ => c < chr " " end)
  /\ (true = false
      -> exists rest : list Z,
           demo_rx = [97; 98; 0] ++ rest
           /\ Forall (fun c => chr " " <= c) [97; 98; 0]
           /\ length [97; 98; 0] = 4%nat).
Proof.
  split; [lia |]. split; [reflexivity |].
  apply (serialReadLine_stays_in_buffer 4 demo_rx true [97; 98; 0]).
  - lia.
  - reflexivity.
Defined.



(** The five records give the header and five lines; the marker stands
    for three turns, so the record number ends at 7, and the 72 bytes
    that follow the last record are passed over. *)
Example conversion_of_demo_file :
  exists q,
    binaryToCsv 64 128 ATmega328P 16 demo_printer demo_setup
      (demo_chunks ++ [demo_end_of_file])
    = Finished q
    /\ nr q = 7
    /\ map (fun l => match l with
                     | LineHeader => -2
                     | LineOverruns _ => -1
                     | LineData k _ => k
                     end) (lines_of (out q))
       = [-2; 0; 1; -1; 5; 6].
Proof. eexists. vm_compute. repeat split. Qed.
